(** * GitHuntr: repository scanner (src/githuntr.py)

    A shallow embedding of the scanning engine of [githuntr.py]:
    [EntropyCalculator] (Shannon entropy and the secret-candidate filter),
    the tree walks [search_branch] and [search_commit], the history loop
    [search_history] and the driver [scan_repository] with its
    [try]/[finally] clean-up.

    Conventions.
    - A Python [str] is a sequence of Unicode code points: [pystr := list N].
    - [bytes] are [list byte].
    - A Python [dict] used as a map is a [gmap]; the frequency table of
      [calculate_entropy], whose iteration order feeds a left-to-right sum,
      is an association list in insertion order.
    - Exceptions are values of [exn]; a call that may raise returns an
      [outcome].
    - Python floats are idealised as real numbers: [calculate_entropy]
      lands in [R], [math.log2 x] is [ln x / ln 2] and the threshold [4.3]
      is the real [43 / 10]. Rounding of IEEE doubles is not represented.
    - [re], [os.path], the [utf-8] codec and [str.strip] are library code;
      they are modelled here as far as the scanner uses them ([re] as of
      Python 3.7, where an empty match may follow a non-empty one).
    - [print] and the progress bars of [tqdm] leave no trace in the
      results and are left out. *)

From Stdlib Require Import Reals Lra Lia ZArith NArith List Permutation.
From Stdlib Require Import Strings.String Strings.Ascii Strings.Byte.
From stdpp Require Import base option list gmap.

Import ListNotations.

Local Open Scope nat_scope.

(* ===================================================================== *)
(** * Python values *)
(* ===================================================================== *)

(** A [str]: the sequence of its code points. *)
Abbreviation pystr := (list N).

(** A string literal of the source, code point by code point (ASCII). *)
Definition str (s : string) : pystr :=
  map N_of_ascii (list_ascii_of_string s).

(** [bytes]. *)
Abbreviation pybytes := (list byte).

Definition bytes_of (s : string) : pybytes :=
  map byte_of_ascii (list_ascii_of_string s).

(** The exceptions the scanner distinguishes by class.  [OtherError] stands
    for every class that no handler of the program names. *)
Inductive exn : Type :=
| UnicodeDecodeError
| IOError
| GitCommandError
| ReError
| OtherError.

Inductive outcome (A : Type) : Type :=
| Ret (a : A)
| Raise (e : exn).
Arguments Ret {A} a.
Arguments Raise {A} e.

#[global] Instance exn_eq_dec : EqDecision exn.
Proof. solve_decision. Defined.

#[global] Instance outcome_eq_dec {A : Type} `{EqDecision A} :
  EqDecision (outcome A).
Proof. solve_decision. Defined.

#[global] Instance byte_eq_dec : EqDecision byte := Byte.byte_eq_dec.

(** [s.startswith(p)]. *)
Fixpoint startswith (p s : pystr) : bool :=
  match p, s with
  | [], _ => true
  | _ :: _, [] => false
  | a :: p', b :: s' => N.eqb a b && startswith p' s'
  end.

(** [p in s]: the substring test of [in] on strings. *)
Fixpoint str_in (p s : pystr) : bool :=
  startswith p s ||
  match s with
  | [] => false
  | _ :: s' => str_in p s'
  end.

(** [Py_UNICODE_ISSPACE]: the code points on which [str.isspace] holds.
    Both [str.strip()] and the class [\s] of [re] (on [str] patterns) use
    this predicate. *)
Definition isspace (c : N) : bool :=
  ((9 <=? c) && (c <=? 13) || (28 <=? c) && (c <=? 32) ||
   (c =? 133) || (c =? 160) || (c =? 5760) ||
   (8192 <=? c) && (c <=? 8202) || (c =? 8232) || (c =? 8233) ||
   (c =? 8239) || (c =? 8287) || (c =? 12288))%N.

Fixpoint lstrip (s : pystr) : pystr :=
  match s with
  | c :: s' => if isspace c then lstrip s' else s
  | [] => []
  end.

Definition rstrip (s : pystr) : pystr := rev (lstrip (rev s)).

(** [str.strip()] with no argument. *)
Definition strip (s : pystr) : pystr := rstrip (lstrip s).

(* ===================================================================== *)
(** * The [utf-8] codec, strict error handling *)
(* ===================================================================== *)

Module codecs.

Definition is_cont (b : N) : bool := ((128 <=? b) && (b <=? 191))%N.

Definition cont_bits (b : N) : N := N.land b 63.

Definition push (c : N) (r : option pystr) : option pystr :=
  match r with
  | Some s => Some (c :: s)
  | None => None
  end.

(** The decoder, one scalar value at a time.  [None] is where
    [bytes.decode('utf-8')] raises [UnicodeDecodeError]: a stray
    continuation byte, a truncated or overlong sequence, a surrogate, or a
    value above U+10FFFF. *)
Fixpoint decode (bs : list N) : option pystr :=
  match bs with
  | [] => Some []
  | b0 :: r0 =>
    if (b0 <? 128)%N then push b0 (decode r0)
    else if ((194 <=? b0) && (b0 <=? 223))%N then
      match r0 with
      | b1 :: r1 =>
        if is_cont b1
        then push (N.shiftl (N.land b0 31) 6 + cont_bits b1)%N (decode r1)
        else None
      | _ => None
      end
    else if ((224 <=? b0) && (b0 <=? 239))%N then
      match r0 with
      | b1 :: b2 :: r2 =>
        let lo := (if b0 =? 224 then 160 else 128)%N in
        let hi := (if b0 =? 237 then 159 else 191)%N in
        if ((lo <=? b1) && (b1 <=? hi))%N && is_cont b2
        then push (N.shiftl (N.land b0 15) 12 +
                   N.shiftl (cont_bits b1) 6 + cont_bits b2)%N (decode r2)
        else None
      | _ => None
      end
    else if ((240 <=? b0) && (b0 <=? 244))%N then
      match r0 with
      | b1 :: b2 :: b3 :: r3 =>
        let lo := (if b0 =? 240 then 144 else 128)%N in
        let hi := (if b0 =? 244 then 143 else 191)%N in
        if ((lo <=? b1) && (b1 <=? hi))%N && is_cont b2 && is_cont b3
        then push (N.shiftl (N.land b0 7) 18 +
                   N.shiftl (cont_bits b1) 12 +
                   N.shiftl (cont_bits b2) 6 + cont_bits b3)%N (decode r3)
        else None
      | _ => None
      end
    else None
  end.

(** [data.decode('utf-8')]. *)
Definition utf_8_decode (data : pybytes) : outcome pystr :=
  match decode (map Byte.to_N data) with
  | Some s => Ret s
  | None => Raise UnicodeDecodeError
  end.

End codecs.

(* ===================================================================== *)
(** * The [re] module: compiled patterns and the backtracking matcher *)
(* ===================================================================== *)

(** The scanner hands its patterns to Python's [re].  A compiled pattern is
    a syntax tree; the matcher below follows the backtracking engine of
    [re] in its default mode: alternatives are tried left to right,
    [*], [+] and [?] are greedy, a group keeps the span of its last
    iteration, and the first success in that order is the match.  The
    fragment covers literals, [.], classes and the escapes [\s], [\w],
    [\d] (all of them [Chr] with the predicate of the class), [^], [$],
    concatenation, alternation, the three greedy quantifiers and capturing
    groups. *)
Module re.

Inductive regex : Type :=
| Eps
| Chr (p : N -> bool)
| Bol
| Eol
| Cat (r1 r2 : regex)
| Alt (r1 r2 : regex)
| Star (r : regex)
| Plus (r : regex)
| Opt (r : regex)
| Group (r : regex).

(** [Pattern.groups]: the number of capturing groups; they are numbered
    from 1 by the position of their opening parenthesis. *)
Fixpoint groups (r : regex) : nat :=
  match r with
  | Eps | Chr _ | Bol | Eol => 0
  | Cat r1 r2 | Alt r1 r2 => groups r1 + groups r2
  | Star r' | Plus r' | Opt r' => groups r'
  | Group r' => S (groups r')
  end.

(** The spans of the groups that took part in the match. *)
Abbreviation marks := (gmap nat (nat * nat)).

Abbreviation result := (option (nat * marks)).

(** Greedy repetition with the zero-width protection of the engine: after an
    iteration that consumed something the body is tried again, after an
    empty iteration (and when the body fails) the tail is matched.  Every
    iteration that loops consumes a character, so [S (length s)] rounds
    never run out. *)
Fixpoint repeat_loop (body : nat -> marks -> (nat -> marks -> result) -> result)
    (fuel : nat) (i : nat) (mk : marks) (k : nat -> marks -> result) : result :=
  match fuel with
  | O => k i mk
  | S fuel' =>
    match body i mk (fun j mk' =>
            if i <? j then repeat_loop body fuel' j mk' k else k j mk') with
    | Some x => Some x
    | None => k i mk
    end
  end.

(** [m r g s i mk k]: match [r] at position [i] of [s] and continue with
    [k] at the position reached; [g] is the number of groups opened to the
    left of [r], [mk] the marks so far. *)
Fixpoint m (r : regex) (g : nat) (s : pystr) (i : nat) (mk : marks)
    (k : nat -> marks -> result) {struct r} : result :=
  match r with
  | Eps => k i mk
  | Chr p =>
    match s !! i with
    | Some c => if p c then k (S i) mk else None
    | None => None
    end
  | Bol => if i =? 0 then k i mk else None
  | Eol =>
    if (i =? length s) ||
       ((S i =? length s) && bool_decide (s !! i = Some 10%N))
    then k i mk else None
  | Cat r1 r2 =>
    m r1 g s i mk (fun j mk' => m r2 (g + groups r1) s j mk' k)
  | Alt r1 r2 =>
    match m r1 g s i mk k with
    | Some x => Some x
    | None => m r2 (g + groups r1) s i mk k
    end
  | Star r' => repeat_loop (m r' g s) (S (length s)) i mk k
  | Plus r' =>
    m r' g s i mk (fun j mk' => repeat_loop (m r' g s) (S (length s)) j mk' k)
  | Opt r' =>
    match m r' g s i mk k with
    | Some x => Some x
    | None => k i mk
    end
  | Group r' =>
    m r' (S g) s i mk (fun j mk' => k j (<[S g := (i, j)]> mk'))
  end.

(** A match object: [start()], [end()] and the group spans. *)
Record Match : Type := mkMatch {
  m_start : nat;
  m_end : nat;
  m_marks : marks
}.

(** One attempt at position [i].  With [must_advance] an empty match at [i]
    is refused and the engine backtracks for another one. *)
Definition match_at (r : regex) (s : pystr) (i : nat) (must_advance : bool)
    : option Match :=
  match m r 0 s i ∅ (fun j mk =>
          if must_advance && (j =? i) then None else Some (j, mk)) with
  | Some (j, mk) => Some (mkMatch i j mk)
  | None => None
  end.

(** The scan of [search]: position [i], then the [n] positions after it;
    only the first attempt carries [must_advance]. *)
Fixpoint search_loop (r : regex) (s : pystr) (n : nat) (i : nat)
    (must_advance : bool) : option Match :=
  match match_at r s i must_advance with
  | Some mt => Some mt
  | None =>
    match n with
    | O => None
    | S n' => search_loop r s n' (S i) false
    end
  end.

Definition search_from (r : regex) (s : pystr) (pos : nat)
    (must_advance : bool) : option Match :=
  search_loop r s (length s - pos) pos must_advance.

(** [re.search(r, s)]: the leftmost match, [None] when there is none.  A
    match object is always true in a condition. *)
Definition search (r : regex) (s : pystr) : option Match :=
  search_from r s 0 false.

(** The loop shared by [findall], [finditer] and [split]: the next search
    starts where the last match ended, and after an empty match it must
    advance. *)
Fixpoint scan (r : regex) (s : pystr) (fuel : nat) (pos : nat)
    (must_advance : bool) : list Match :=
  match fuel with
  | O => []
  | S fuel' =>
    match search_from r s pos must_advance with
    | None => []
    | Some mt =>
      mt :: scan r s fuel' (m_end mt) (m_end mt =? m_start mt)
    end
  end.

Definition finditer (r : regex) (s : pystr) : list Match :=
  scan r s (2 * length s + 2) 0 false.

Definition slice (s : pystr) (a b : nat) : pystr := take (b - a) (drop a s).

(** [m.group(0)]. *)
Definition group0 (s : pystr) (mt : Match) : pystr :=
  slice s (m_start mt) (m_end mt).

(** The text of group [g], the empty string when the group took no part
    (as [findall] reports it). *)
Definition group_text (s : pystr) (mt : Match) (g : nat) : pystr :=
  match m_marks mt !! g with
  | Some (a, b) => slice s a b
  | None => []
  end.

(** An element of the list [findall] returns: a string, or a tuple of
    strings when the pattern has more than one group. *)
Inductive item : Type :=
| Str (t : pystr)
| Tuple (ts : list pystr).

Definition item_of (r : regex) (s : pystr) (mt : Match) : item :=
  match groups r with
  | 0 => Str (group0 s mt)
  | 1 => Str (group_text s mt 1)
  | n => Tuple (map (group_text s mt) (seq 1 n))
  end.

(** [re.findall(r, s)]. *)
Definition findall (r : regex) (s : pystr) : list item :=
  map (item_of r s) (finditer r s).

(** The segments [re.split(r, s)] returns for a pattern without groups: the
    text before each match, then the text after the last one. *)
Fixpoint segments (s : pystr) (last : nat) (ms : list Match) : list pystr :=
  match ms with
  | [] => [slice s last (length s)]
  | mt :: ms' => slice s last (m_start mt) :: segments s (m_end mt) ms'
  end.

Definition split (r : regex) (s : pystr) : list pystr :=
  segments s 0 (finditer r s).

(** Pattern syntax used below. *)
Definition lit (c : N) : regex := Chr (N.eqb c).

Fixpoint lits (cs : pystr) : regex :=
  match cs with
  | [] => Eps
  | [c] => lit c
  | c :: cs' => Cat (lit c) (lits cs')
  end.

(** [.] without [DOTALL]: anything but a newline. *)
Definition dot : regex := Chr (fun c => negb (c =? 10)%N).

Definition ascii_alnum (c : N) : bool :=
  ((48 <=? c) && (c <=? 57) || (65 <=? c) && (c <=? 90) ||
   (97 <=? c) && (c <=? 122))%N.

(** [\w] on a [str] pattern: alphanumeric or underscore.  Below 128 the
    class is spelt out; above, [isalnum] is the Unicode database's
    [str.isalnum]. *)
Definition word_class (isalnum : N -> bool) (c : N) : bool :=
  if (c <? 128)%N then ascii_alnum c || (c =? 95)%N else isalnum c.

End re.

(* ===================================================================== *)
(** * [os.path] (POSIX) *)
(* ===================================================================== *)

Module posixpath.

Definition sep : N := 47.

(** [path.split('/')]. *)
Fixpoint split_sep_aux (cur : pystr) (path : pystr) : list pystr :=
  match path with
  | [] => [rev cur]
  | c :: rest =>
    if (c =? sep)%N then rev cur :: split_sep_aux [] rest
    else split_sep_aux (c :: cur) rest
  end.

Definition split_sep (path : pystr) : list pystr := split_sep_aux [] path.

(** ['/'.join(comps)]. *)
Fixpoint join_sep (comps : list pystr) : pystr :=
  match comps with
  | [] => []
  | [c] => c
  | c :: rest => c ++ sep :: join_sep rest
  end.

Definition endswith_sep (path : pystr) : bool :=
  match rev path with
  | c :: _ => (c =? sep)%N
  | [] => false
  end.

(** [os.path.join(a, b)]. *)
Definition join (a b : pystr) : pystr :=
  if startswith [sep] b then b
  else if bool_decide (a = []) || endswith_sep a then a ++ b
  else a ++ sep :: b.

Definition is_dotdot (comp : pystr) : bool := bool_decide (comp = [46; 46]%N).

Fixpoint norm_comps (initial_slashes : bool) (comps new_comps : list pystr)
    : list pystr :=
  match comps with
  | [] => rev new_comps
  | comp :: rest =>
    if bool_decide (comp = []) || bool_decide (comp = [46]%N)
    then norm_comps initial_slashes rest new_comps
    else if negb (is_dotdot comp) ||
            (negb initial_slashes && bool_decide (new_comps = [])) ||
            match new_comps with
            | top :: _ => is_dotdot top
            | [] => false
            end
    then norm_comps initial_slashes rest (comp :: new_comps)
    else norm_comps initial_slashes rest (tail new_comps)
  end.

(** [os.path.normpath]. *)
Definition normpath (path : pystr) : pystr :=
  match path with
  | [] => [46%N]
  | _ =>
    let slashes :=
      if startswith [sep] path then
        if startswith [sep; sep] path && negb (startswith [sep; sep; sep] path)
        then 2 else 1
      else 0 in
    let comps := norm_comps (0 <? slashes) (split_sep path) [] in
    match repeat sep slashes ++ join_sep comps with
    | [] => [46%N]
    | q => q
    end
  end.

(** [os.path.abspath], the working directory of the process made explicit. *)
Definition abspath (cwd path : pystr) : pystr :=
  normpath (if startswith [sep] path then path else join cwd path).

Fixpoint commonprefix_len (l1 l2 : list pystr) : nat :=
  match l1, l2 with
  | a :: l1', b :: l2' =>
    if bool_decide (a = b) then S (commonprefix_len l1' l2') else 0
  | _, _ => 0
  end.

Definition nonempty_comps (path : pystr) : list pystr :=
  filter (fun x => x <> []) (split_sep path).

(** [os.path.relpath(path, start)], for a non-empty [path] (the paths the
    walk builds are never empty). *)
Definition relpath (cwd path start : pystr) : pystr :=
  let start_list := nonempty_comps (abspath cwd start) in
  let path_list := nonempty_comps (abspath cwd path) in
  let i := commonprefix_len start_list path_list in
  let rel_list := repeat [46; 46]%N (length start_list - i) ++ drop i path_list in
  match rel_list with
  | [] => [46%N]
  | c :: rest => fold_left join rest c
  end.

End posixpath.

(* ===================================================================== *)
(** * [class EntropyCalculator] *)
(* ===================================================================== *)

Module EntropyCalculator.

Definition BASE64_CHARS : pystr :=
  str "ABCDEFGHIJKLMNOPQRSTUVWXYZabcdefghijklmnopqrstuvwxyz0123456789+/=".

(** The dictionary [freq], in insertion order. *)
Abbreviation freq_dict := (list (N * nat)).

(** [freq.get(char, 0)]. *)
Fixpoint dict_get (freq : freq_dict) (char : N) (default : nat) : nat :=
  match freq with
  | [] => default
  | (c, n) :: rest => if (c =? char)%N then n else dict_get rest char default
  end.

(** [freq[char] = v]: an existing key keeps its place. *)
Fixpoint dict_set (freq : freq_dict) (char : N) (v : nat) : freq_dict :=
  match freq with
  | [] => [(char, v)]
  | (c, n) :: rest =>
    if (c =? char)%N then (c, v) :: rest else (c, n) :: dict_set rest char v
  end.

(** The loop [for char in text: freq[char] = freq.get(char, 0) + 1]. *)
Definition count_chars (text : pystr) : freq_dict :=
  fold_left (fun freq char => dict_set freq char (dict_get freq char 0 + 1))
            text [].

(** [freq.values()]. *)
Definition values (freq : freq_dict) : list nat := map snd freq.

(** [math.log2]. *)
Definition log2 (x : R) : R := (ln x / ln 2)%R.

(** The built-in [sum]: from 0, left to right. *)
Definition sum (xs : list R) : R := fold_left Rplus xs 0%R.

Definition calculate_entropy (text : pystr) : R :=
  match text with
  | [] => 0%R
  | _ :: _ =>
    let freq := count_chars text in
    let length := length text in
    (- sum (map (fun count =>
                   INR count / INR length * log2 (INR count / INR length))
                (values freq)))%R
  end.

(** The class [[\s:=]] of the split pattern. *)
Definition sep_class (c : N) : bool :=
  isspace c || (c =? 58)%N || (c =? 61)%N.

(** [r'[\s:=]+']. *)
Definition SPLIT_PATTERN : re.regex := re.Plus (re.Chr sep_class).

(** The literal [4.3]. *)
Definition threshold : R := (43 / 10)%R.

(** One round of the loop over [words]. *)
Definition check_word (secrets : list pystr) (word : pystr) : list pystr :=
  let word := strip word in
  if 15 <? length word then
    if forallb (fun c => str_in [c] BASE64_CHARS) word then
      let entropy := calculate_entropy word in
      if Rgt_dec entropy threshold then secrets ++ [word] else secrets
    else secrets
  else secrets.

Definition scan_for_secrets (content : pystr) : list pystr :=
  let words := re.split SPLIT_PATTERN content in
  fold_left check_word words [].

End EntropyCalculator.

(* ===================================================================== *)
(** * The collaborators: GitPython objects, the working tree, the process *)
(* ===================================================================== *)

Module git.

Inductive obj_type : Type := blob | tree | submodule.

(** An entry of [commit.tree.traverse()]: [data_stream_read] is what
    [data_stream.read()] does on it. *)
Record Object : Type := mkObject {
  type : obj_type;
  name : pystr;
  path : pystr;
  data_stream_read : outcome pybytes
}.

(** A commit.  [traverse] lists the entries its tree yields, and
    [traverse_raises] the exception, if any, that ends the iteration after
    them. *)
Record Commit : Type := mkCommit {
  hexsha : pystr;
  author_name : pystr;
  authored_date : Z;
  message : pystr;
  traverse : list Object;
  traverse_raises : option exn
}.

(** One step of [os.walk]: a directory, its sub-directories and its files;
    each file comes with what opening and reading it in binary gives. *)
Record walk_entry : Type := mkWalk {
  root : pystr;
  dirs : list pystr;
  files : list (pystr * outcome pybytes)
}.

(** A cloned repository: the names of the remote refs, what
    [git.checkout(branch)] does (the working tree it leaves, as [os.walk]
    over the clone directory lists it, or the exception it raises) and the
    result of [iter_commits('--all')]. *)
Record Repo : Type := mkRepo {
  remote_refs : list pystr;
  checkout : pystr -> outcome (list walk_entry);
  iter_commits : outcome (list Commit)
}.

End git.

(** What the process finds around it. *)
Record Env : Type := mkEnv {
  getcwd : pystr;
  mkdtemp : pystr;
  clone_from : outcome git.Repo;
  re_compile : pystr -> outcome re.regex
}.

(* ===================================================================== *)
(** * [class GitHuntr] *)
(* ===================================================================== *)

Module GitHuntr.

(** The dictionaries [branch_results] and [commit_results] without
    ['commit_info']. *)
Record TreeResult : Type := mkTree {
  filenames : list pystr;
  content : gmap pystr (list re.item);
  entropy : gmap pystr (list pystr)
}.

Definition empty_tree : TreeResult := mkTree [] ∅ ∅.

Record CommitInfo : Type := mkInfo {
  info_hash : pystr;
  info_author : pystr;
  info_date : Z;
  info_message : pystr
}.

Record CommitResult : Type := mkCommitResult {
  tree_result : TreeResult;
  commit_info : CommitInfo
}.

(** [self.results]. *)
Record Results : Type := mkResults {
  repo : pystr;
  branches : gmap pystr TreeResult;
  commit_history : gmap pystr CommitResult
}.

(** The instance, the directories that exist on disk, and the log of the
    blobs whose [data_stream.read()] was called, oldest first. *)
Record State : Type := mkState {
  repo_url : pystr;
  repo_name : pystr;
  temp_dir : pystr;
  self_repo : option git.Repo;
  self_branches : list pystr;
  max_commits : option Z;
  results : Results;
  fs : gset pystr;
  reads : list git.Object
}.

Definition set_results (f : Results -> Results) (st : State) : State :=
  mkState (repo_url st) (repo_name st) (temp_dir st) (self_repo st)
          (self_branches st) (max_commits st) (f (results st)) (fs st)
          (reads st).

Definition set_fs (f : gset pystr -> gset pystr) (st : State) : State :=
  mkState (repo_url st) (repo_name st) (temp_dir st) (self_repo st)
          (self_branches st) (max_commits st) (results st) (f (fs st))
          (reads st).

Definition set_reads (l : list git.Object) (st : State) : State :=
  mkState (repo_url st) (repo_name st) (temp_dir st) (self_repo st)
          (self_branches st) (max_commits st) (results st) (fs st) l.

(** [s.split('/')[-1]]. *)
Definition last_segment (s : pystr) : pystr :=
  List.last (posixpath.split_sep s) [].

(** [__init__].  [temp_dir or tempfile.mkdtemp(...)]: without a directory
    (or with the empty string) a fresh one is made. *)
Definition init (env : Env) (disk : gset pystr) (url : pystr)
    (tmp : option pystr) (maxc : option Z) : State :=
  match tmp with
  | Some (c :: d) =>
    mkState url (last_segment url) (c :: d) None [] maxc
            (mkResults url ∅ ∅) disk []
  | _ =>
    mkState url (last_segment url) (mkdtemp env) None [] maxc
            (mkResults url ∅ ∅) ({[mkdtemp env]} ∪ disk) []
  end.

(** [clone_repo]: a failed clone re-raises; a successful one leaves the
    clone in [temp_dir] and collects the branch names. *)
Definition clone_repo (env : Env) (st : State) : outcome unit * State :=
  match clone_from env with
  | Raise e => (Raise e, st)
  | Ret r =>
    let names := filter (fun b => b <> str "HEAD")
                        (map last_segment (git.remote_refs r)) in
    (Ret tt,
     mkState (repo_url st) (repo_name st) (temp_dir st) (Some r)
             (self_branches st ++ names) (max_commits st) (results st)
             ({[temp_dir st]} ∪ fs st) (reads st))
  end.

(** [pattern and re.search(pattern, text)] as a condition. *)
Definition matches (pattern : option re.regex) (text : pystr) : bool :=
  match pattern with
  | Some r => bool_decide (is_Some (re.search r text))
  | None => false
  end.

(** The two checks both walks run on a decoded text: the content match and
    the entropy scan, recorded under [key]. *)
Definition scan_text (content_regex : option re.regex) (do_entropy : bool)
    (key : pystr) (text : pystr) (res : TreeResult) : TreeResult :=
  let res1 :=
    match content_regex with
    | Some r =>
      if matches content_regex text
      then mkTree (filenames res) (<[key := re.findall r text]> (content res))
                  (entropy res)
      else res
    | None => res
    end in
  if do_entropy then
    match EntropyCalculator.scan_for_secrets text with
    | [] => res1
    | secrets =>
      mkTree (filenames res1) (content res1) (<[key := secrets]> (entropy res1))
    end
  else res1.

Definition add_filename (filename_regex : option re.regex) (base key : pystr)
    (res : TreeResult) : TreeResult :=
  if matches filename_regex base
  then mkTree (filenames res ++ [key]) (content res) (entropy res)
  else res.

(** [except (UnicodeDecodeError, IOError)]. *)
Definition skipped (e : exn) : bool :=
  match e with
  | UnicodeDecodeError | IOError => true
  | _ => false
  end.

(** Text mode with [newline=None]: every line ending reads as a line feed. *)
Fixpoint universal_newlines (s : pystr) : pystr :=
  match s with
  | [] => []
  | c :: rest =>
    if (c =? 13)%N then
      match rest with
      | d :: rest' =>
        if (d =? 10)%N then 10%N :: universal_newlines rest'
        else 10%N :: universal_newlines rest
      | [] => [10%N]
      end
    else c :: universal_newlines rest
  end.

(** [open(file_path, 'r', encoding='utf-8')] and [f.read()]. *)
Definition read_text_file (f : outcome pybytes) : outcome pystr :=
  match f with
  | Raise e => Raise e
  | Ret data =>
    match codecs.utf_8_decode data with
    | Ret s => Ret (universal_newlines s)
    | Raise e => Raise e
    end
  end.

(** [blob.data_stream.read().decode('utf-8')]. *)
Definition read_blob (b : git.Object) : outcome pystr :=
  match git.data_stream_read b with
  | Raise e => Raise e
  | Ret data => codecs.utf_8_decode data
  end.

Section search.

Variable filename_regex content_regex : option re.regex.
Variable do_entropy : bool.

(** The loop [for file in files] of [search_branch]; the third component is
    the exception that left the loop, if one did. *)
Fixpoint search_files (cwd tmp rt : pystr)
    (fl : list (pystr * outcome pybytes)) (res : TreeResult)
    : TreeResult * option exn :=
  match fl with
  | [] => (res, None)
  | (file, data) :: rest =>
    let file_path := posixpath.join rt file in
    let rel_path := posixpath.relpath cwd file_path tmp in
    let res1 := add_filename filename_regex file rel_path res in
    match read_text_file data with
    | Ret text =>
      search_files cwd tmp rt rest
        (scan_text content_regex do_entropy rel_path text res1)
    | Raise e =>
      if skipped e then search_files cwd tmp rt rest res1
      else (res1, Some e)
    end
  end.

(** The loop [for root, _, files in os.walk(self.temp_dir)]. *)
Fixpoint search_walk (cwd tmp : pystr) (walk : list git.walk_entry)
    (res : TreeResult) : TreeResult * option exn :=
  match walk with
  | [] => (res, None)
  | w :: rest =>
    if str_in (str ".git") (git.root w) then search_walk cwd tmp rest res
    else
      match search_files cwd tmp (git.root w) (git.files w) res with
      | (res', None) => search_walk cwd tmp rest res'
      | (res', Some e) => (res', Some e)
      end
  end.

Definition search_branch (env : Env) (st : State) (branch : pystr)
    : outcome TreeResult :=
  match self_repo st with
  | None => Raise OtherError
  | Some r =>
    match git.checkout r branch with
    | Raise GitCommandError => Ret empty_tree
    | Raise e => Raise e
    | Ret walk =>
      match search_walk (getcwd env) (temp_dir st) walk empty_tree with
      | (res, None) => Ret res
      | (_, Some e) => Raise e
      end
    end
  end.

(** The loop [for blob in commit.tree.traverse()] of [search_commit], with
    the log of the reads. *)
Fixpoint search_tree (items : list git.Object) (after : option exn)
    (res : TreeResult) (log : list git.Object)
    : TreeResult * list git.Object * option exn :=
  match items with
  | [] => (res, log, after)
  | b :: rest =>
    match git.type b with
    | git.blob =>
      let res1 := add_filename filename_regex (git.name b) (git.path b) res in
      let log1 := log ++ [b] in
      match read_blob b with
      | Ret text =>
        search_tree rest after
          (scan_text content_regex do_entropy (git.path b) text res1) log1
      | Raise e =>
        if skipped e then search_tree rest after res1 log1
        else (res1, log1, Some e)
      end
    | _ => search_tree rest after res log
    end
  end.

Definition info_of (c : git.Commit) : CommitInfo :=
  mkInfo (git.hexsha c) (git.author_name c) (git.authored_date c)
         (strip (git.message c)).

(** [search_commit]: a [GitCommandError] ends the walk of the tree with a
    warning and what was found so far is returned; any other exception
    leaves the method. *)
Definition search_commit (c : git.Commit) (st : State)
    : outcome CommitResult * State :=
  match search_tree (git.traverse c) (git.traverse_raises c) empty_tree
                    (reads st) with
  | (res, log, None) | (res, log, Some GitCommandError) =>
    (Ret (mkCommitResult res (info_of c)), set_reads log st)
  | (_, log, Some e) => (Raise e, set_reads log st)
  end.

(** [results['filenames'] or results['content'] or results['entropy']]. *)
Definition has_matches (t : TreeResult) : bool :=
  negb (bool_decide (filenames t = [])) ||
  negb (bool_decide (content t = ∅)) ||
  negb (bool_decide (entropy t = ∅)).

(** [commits[:n]]. *)
Definition slice_to {A : Type} (l : list A) (n : Z) : list A :=
  if (0 <=? n)%Z then take (Z.to_nat n) l
  else take (Z.to_nat (Z.of_nat (length l) + n)) l.

(** The commits [search_history] goes through. *)
Definition selected (maxc : option Z) (commits : list git.Commit)
    : list git.Commit :=
  match maxc with
  | Some n => if (n =? 0)%Z then commits else slice_to commits n
  | None => commits
  end.

(** The loop [for commit in commits]. *)
Fixpoint search_commits (commits : list git.Commit) (st : State)
    : outcome unit * State :=
  match commits with
  | [] => (Ret tt, st)
  | c :: rest =>
    match search_commit c st with
    | (Ret cr, st1) =>
      let st2 :=
        if has_matches (tree_result cr)
        then set_results (fun r =>
               mkResults (repo r) (branches r)
                         (<[git.hexsha c := cr]> (commit_history r))) st1
        else st1 in
      search_commits rest st2
    | (Raise e, st1) => (Raise e, st1)
    end
  end.

Definition search_history (st : State) : outcome unit * State :=
  match self_repo st with
  | None => (Raise OtherError, st)
  | Some r =>
    match git.iter_commits r with
    | Raise e => (Raise e, st)
    | Ret commits => search_commits (selected (max_commits st) commits) st
    end
  end.

(** The loop [for branch in self.branches] of [scan_repository]. *)
Fixpoint search_branches (env : Env) (bs : list pystr) (st : State)
    : outcome unit * State :=
  match bs with
  | [] => (Ret tt, st)
  | b :: rest =>
    match search_branch env st b with
    | Ret res =>
      search_branches env rest
        (set_results (fun r =>
           mkResults (repo r) (<[b := res]> (branches r)) (commit_history r))
           st)
    | Raise e => (Raise e, st)
    end
  end.

End search.

(** [if pattern: pattern = re.compile(pattern)]: [None] and the empty string
    stay as they are, and both are false in the later conditions. *)
Definition compile_opt (env : Env) (pattern : option pystr)
    : outcome (option re.regex) :=
  match pattern with
  | Some (c :: p) =>
    match re_compile env (c :: p) with
    | Ret r => Ret (Some r)
    | Raise e => Raise e
    end
  | _ => Ret None
  end.

(** The [try] block of [scan_repository]. *)
Definition scan_body (env : Env) (filename_regex content_regex : option pystr)
    (do_entropy history : bool) (st : State) : outcome Results * State :=
  match clone_repo env st with
  | (Raise e, st1) => (Raise e, st1)
  | (Ret _, st1) =>
    match compile_opt env filename_regex with
    | Raise e => (Raise e, st1)
    | Ret fr =>
      match compile_opt env content_regex with
      | Raise e => (Raise e, st1)
      | Ret cr =>
        match search_branches fr cr do_entropy env (self_branches st1) st1 with
        | (Raise e, st2) => (Raise e, st2)
        | (Ret _, st2) =>
          if history then
            match search_history fr cr do_entropy st2 with
            | (Raise e, st3) => (Raise e, st3)
            | (Ret _, st3) => (Ret (results st3), st3)
            end
          else (Ret (results st2), st2)
        end
      end
    end
  end.

Definition under (d q : pystr) : bool :=
  bool_decide (q = d) || startswith (d ++ [posixpath.sep]) q.

(** [shutil.rmtree(d)]: the directory and all below it are gone. *)
Definition rmtree (d : pystr) (disk : gset pystr) : gset pystr :=
  filter (fun q => under d q = false) disk.

(** The [finally] block. *)
Definition cleanup (st : State) : State :=
  if bool_decide (temp_dir st ∈ fs st)
  then set_fs (rmtree (temp_dir st)) st
  else st.

(** [scan_repository]: whatever the [try] block did, the [finally] block
    runs, and then the value is returned or the exception goes on to the
    caller. *)
Definition scan_repository (env : Env)
    (filename_regex content_regex : option pystr)
    (do_entropy history : bool) (st : State) : outcome Results * State :=
  let (r, st') := scan_body env filename_regex content_regex do_entropy
                            history st in
  (r, cleanup st').

End GitHuntr.

(* ===================================================================== *)
(** * Vocabulary of the statements *)
(* ===================================================================== *)

(** The test of [search_branch] on a directory. *)
Definition skipped_dir (w : git.walk_entry) : bool :=
  str_in (str ".git") (git.root w).

(** The path under which [search_branch] reports a file. *)
Definition key_of (cwd tmp rt file : pystr) : pystr :=
  posixpath.relpath cwd (posixpath.join rt file) tmp.

(** A path has an entry in some view of [res]. *)
Definition in_view (res : GitHuntr.TreeResult) (key : pystr) : Prop :=
  key ∈ GitHuntr.filenames res \/ is_Some (GitHuntr.content res !! key) \/
  is_Some (GitHuntr.entropy res !! key).

Definition keys_from (P : pystr -> Prop) (res : GitHuntr.TreeResult) : Prop :=
  forall key, in_view res key -> P key.












(* ===================================================================== *)
(** * A small repository to run the scanner on *)
(* ===================================================================== *)

Module sample.

(** Above 127 the sample texts have no character, and this stand-in for the
    Unicode database is never asked. *)
Definition ascii_only (c : N) : bool := false.

(** [\.png$] *)
Definition png : re.regex :=
  re.Cat (re.lit 46) (re.Cat (re.lits (str "png")) re.Eol).

(** [key=\w+] *)
Definition key_word : re.regex :=
  re.Cat (re.lits (str "key=")) (re.Plus (re.Chr (re.word_class ascii_only))).

(** [key=(\w+)] *)
Definition key_group : re.regex :=
  re.Cat (re.lits (str "key="))
         (re.Group (re.Plus (re.Chr (re.word_class ascii_only)))).

Definition compile (pattern : pystr) : outcome re.regex :=
  if bool_decide (pattern = str "\.png$") then Ret png
  else if bool_decide (pattern = str "key=\w+") then Ret key_word
  else if bool_decide (pattern = str "key=(\w+)") then Ret key_group
  else Raise ReError.

Definition readme_bytes : pybytes := bytes_of "key=AAA key=BBB".

Definition logo_bytes : pybytes := [x89; x50; x4e; x47; x0d; x0a; x1a; x0a].

Definition readme : git.Object :=
  git.mkObject git.blob (str "README.md") (str "README.md") (Ret readme_bytes).

Definition logo : git.Object :=
  git.mkObject git.blob (str "logo.png") (str "img/logo.png") (Ret logo_bytes).

Definition img : git.Object :=
  git.mkObject git.tree (str "img") (str "img") (Raise OtherError).

Definition notes : git.Object :=
  git.mkObject git.blob (str "notes.txt") (str "notes.txt")
               (Ret (bytes_of "nothing here")).

(** The newest commit first, as [iter_commits] lists them. *)
Definition commit2 : git.Commit :=
  git.mkCommit (str "9f2c") (str "bob") 1700000100 (str "add notes")
               [readme; notes] None.

Definition commit1 : git.Commit :=
  git.mkCommit (str "41ab") (str "ann") 1700000000 (str "first")
               [readme; img; logo] None.

Definition tmp : pystr := str "/tmp/githuntr-k3x".

Definition worktree : list git.walk_entry :=
  [ git.mkWalk tmp [str ".git"; str ".github"; str "img"]
      [(str "README.md", Ret readme_bytes);
       (str "notes.txt", Ret (bytes_of "nothing here"))];
    git.mkWalk (str "/tmp/githuntr-k3x/.git") []
      [(str "config", Ret (bytes_of "key=CCC"))];
    git.mkWalk (str "/tmp/githuntr-k3x/.github") []
      [(str "ci.yml", Ret (bytes_of "key=DDD"))];
    git.mkWalk (str "/tmp/githuntr-k3x/img") []
      [(str "logo.png", Ret logo_bytes)] ].

Definition repository : git.Repo :=
  git.mkRepo [str "origin/HEAD"; str "origin/main"]
    (fun b => if bool_decide (b = str "main") then Ret worktree
              else Raise GitCommandError)
    (Ret [commit2; commit1]).

Definition env : Env := mkEnv (str "/home/user") tmp (Ret repository) compile.

(** The instance as [main] makes it, and after the clone. *)
Definition fresh (maxc : option Z) : GitHuntr.State :=
  GitHuntr.init env ∅ (str "https://example.org/acme/tool") None maxc.

Definition cloned (maxc : option Z) : GitHuntr.State :=
  (GitHuntr.clone_repo env (fresh maxc)).2.

End sample.

(** Environments in which one stage of the run fails. *)
Module failing.

Definition clone : Env :=
  mkEnv (str "/home/user") sample.tmp (Raise GitCommandError) sample.compile.

Definition branch_repo : git.Repo :=
  git.mkRepo [str "origin/main"] (fun _ => Raise OtherError)
             (Ret [sample.commit1]).

Definition branch : Env :=
  mkEnv (str "/home/user") sample.tmp (Ret branch_repo) sample.compile.

Definition history_repo : git.Repo :=
  git.mkRepo [str "origin/main"] (git.checkout sample.repository)
             (Raise OtherError).

Definition history : Env :=
  mkEnv (str "/home/user") sample.tmp (Ret history_repo) sample.compile.

Definition start (env : Env) : GitHuntr.State :=
  GitHuntr.init env ∅ (str "https://example.org/acme/tool") None None.

End failing.

(* ===================================================================== *)
(** * What [finditer] is to return *)
(* ===================================================================== *)

(** [all_matches r s pos adv ms]: [ms] are the matches of [r] in [s] from
    [pos] on, leftmost first and none overlapping the one before: each is
    the match the engine finds at its start, no position before it (from
    the end of the previous match) has a match, and after the last one no
    position up to the end of the text has one.  [adv] says that the match
    before was empty, in which case an empty match at [pos] itself does not
    count. *)
Inductive all_matches (r : re.regex) (s : pystr)
    : nat -> bool -> list re.Match -> Prop :=
| all_matches_nil (pos : nat) (adv : bool) :
    (forall p, pos <= p <= length s ->
       re.match_at r s p (adv && (p =? pos)) = None) ->
    all_matches r s pos adv []
| all_matches_cons (pos : nat) (adv : bool) (mt : re.Match)
    (ms : list re.Match) :
    pos <= re.m_start mt <= re.m_end mt ->
    re.m_end mt <= length s ->
    (forall p, pos <= p < re.m_start mt ->
       re.match_at r s p (adv && (p =? pos)) = None) ->
    re.match_at r s (re.m_start mt) (adv && (re.m_start mt =? pos)) = Some mt ->
    all_matches r s (re.m_end mt) (re.m_end mt =? re.m_start mt) ms ->
    all_matches r s pos adv (mt :: ms).

(** Where a continuation of the matcher can be entered: at or after the
    position the matcher started from, and inside the text. *)
Definition enters (s : pystr) (i : nat) (k : nat -> re.marks -> re.result)
    (x : nat * re.marks) : Prop :=
  exists j mk', i <= j /\ (i <= length s -> j <= length s) /\ k j mk' = Some x.


(* ===================================================================== *)
(** * Secret candidates *)
(* ===================================================================== *)

#[global] Instance Rgt_decision (x y : R) : Decision (x > y)%R := Rgt_dec x y.

(** The three conditions on a token. *)
Definition candidate (w : pystr) : Prop :=
  15 < length w /\
  Forall (fun c => c ∈ EntropyCalculator.BASE64_CHARS) w /\
  (EntropyCalculator.calculate_entropy w > 43 / 10)%R.

#[global] Instance candidate_dec (w : pystr) : Decision (candidate w).
Proof. unfold candidate. apply _. Defined.


(** Thirty-two characters of the alphabet, each once. *)
Definition token32 : pystr := str "ABCDEFGHIJKLMNOPQRSTUVWXYZabcdef".

(* ===================================================================== *)
(** * Shannon entropy, as the specification words it *)
(* ===================================================================== *)

Definition Rsum (xs : list R) : R := fold_right Rplus 0%R xs.

(** The empirical frequency of a character: its share of the text. *)
Definition frequency (text : pystr) (c : N) : R :=
  (INR (count_occ N.eq_dec text c) / INR (length text))%R.

(** Minus the sum of [p * log2 p] over the distinct characters of the text;
    an empty text has no character and gives 0. *)
Definition shannon_entropy (text : pystr) : R :=
  (- Rsum (map (fun c => frequency text c *
                          EntropyCalculator.log2 (frequency text c))
               (nodup N.eq_dec text)))%R.

(* ===================================================================== *)
(** * The threshold test in integers *)
(* ===================================================================== *)

(** With [n] the length of the text and [c] running over the counts of its
    characters, the entropy is above [43 / 10] exactly when
    [2 ^ (43 n) * prod (c ^ (10 c)) < n ^ (10 n)]: an inequality between
    integers, which evaluates. *)
Definition weight (counts : list nat) : Z :=
  fold_right (fun c acc => (Z.of_nat c ^ Z.of_nat (10 * c) * acc)%Z) 1%Z counts.

Definition above_threshold (text : pystr) : bool :=
  let n := length text in
  (2 ^ Z.of_nat (43 * n) *
   weight (EntropyCalculator.values (EntropyCalculator.count_chars text))
   <? Z.of_nat n ^ Z.of_nat (10 * n))%Z.

(** The three conditions, as a function. *)
Definition candidateb (w : pystr) : bool :=
  (15 <? length w) &&
  forallb (fun c => str_in [c] EntropyCalculator.BASE64_CHARS) w &&
  above_threshold w.

(** The scenario of the specification: [config.yaml] with a token of 32
    characters of the alphabet, the pattern [\.yaml$] on the file names,
    the entropy scan switched on. *)
Module scenario.

Definition token : pystr := str "a1B9x7Q2kP0mZ6vR3tY8sD5fG1hJ4nL7".

Definition yaml : re.regex :=
  re.Cat (re.lit 46) (re.Cat (re.lits (str "yaml")) re.Eol).

Definition worktree : list git.walk_entry :=
  [ git.mkWalk sample.tmp [str ".git"]
      [(str "config.yaml",
        Ret (bytes_of "token: a1B9x7Q2kP0mZ6vR3tY8sD5fG1hJ4nL7"))];
    git.mkWalk (str "/tmp/githuntr-k3x/.git") []
      [(str "HEAD", Ret (bytes_of "ref: refs/heads/main"))] ].

End scenario.

(* ===================================================================== *)
(** * [validate_regex] and [main] *)
(* ===================================================================== *)

Module cli.

(** The characters of ['.^${}[]()'] . *)
Definition GLOB_META : pystr := str ".^${}[]()".

(** [pattern.replace('*', '.*')]. *)
Fixpoint replace_star (pattern : pystr) : pystr :=
  match pattern with
  | [] => []
  | c :: rest =>
    if (c =? 42)%N then 46%N :: 42%N :: replace_star rest
    else c :: replace_star rest
  end.

(** ['*' in pattern and not any(c in pattern for c in '.^${}[]()')]. *)
Definition glob_style (pattern : pystr) : bool :=
  str_in [42%N] pattern &&
  negb (existsb (fun c => str_in [c] pattern) GLOB_META).

(** [validate_regex(pattern, pattern_type)]: [None] for no pattern and for
    one that [re.compile] refuses with [re.error]; the pattern, after the
    translation of a glob, otherwise.  [pattern_type] only words the
    message. *)
Definition validate_regex (env : Env) (pattern : option pystr)
    (pattern_type : pystr) : outcome (option pystr) :=
  match pattern with
  | Some (c :: p) =>
    let pattern :=
      if glob_style (c :: p) then replace_star (c :: p) else c :: p in
    match re_compile env pattern with
    | Ret _ => Ret (Some pattern)
    | Raise ReError => Ret None
    | Raise e => Raise e
    end
  | _ => Ret None
  end.

(** The namespace [parse_args] returns. *)
Record Args : Type := mkArgs {
  filename_regex : option pystr;
  content_regex : option pystr;
  output_file : option pystr;
  repo_url : pystr;
  entropy : bool;
  history : bool;
  max_commits : option Z
}.

(** What [main] asks of the machine besides the clone: the answer to
    [git --version], and the writing of the report to a file. *)
Record Host : Type := mkHost {
  git_version : outcome unit;
  write_report : pystr -> GitHuntr.Results -> outcome unit
}.

(** A value that is true in a condition: a string, and not the empty one. *)
Definition truthy (s : option pystr) : bool :=
  match s with
  | Some (_ :: _) => true
  | _ => false
  end.

(** Where the report went: to a file, or to the standard output. *)
Inductive sink : Type :=
| ToFile (name : pystr)
| ToStdout.

(** A run of [main]: the value it returns (or the exception that leaves it),
    the directories on disk afterwards, and the report it put out. *)
Record Run : Type := mkRun {
  exit_code : outcome Z;
  disk_after : gset pystr;
  report : option (sink * GitHuntr.Results)
}.

Definition main (env : Env) (host : Host) (disk : gset pystr) (args : Args)
    : Run :=
  match validate_regex env (filename_regex args) (str "filename") with
  | Raise e => mkRun (Raise e) disk None
  | Ret fr =>
    match validate_regex env (content_regex args) (str "content") with
    | Raise e => mkRun (Raise e) disk None
    | Ret cr =>
      if (truthy (filename_regex args) && negb (truthy fr)) ||
         (truthy (content_regex args) && negb (truthy cr))
      then mkRun (Ret 1%Z) disk None
      else
        match git_version host with
        | Raise GitCommandError => mkRun (Ret 1%Z) disk None
        | Raise e => mkRun (Raise e) disk None
        | Ret _ =>
          let scanner :=
            GitHuntr.init env disk (repo_url args) None (max_commits args) in
          match GitHuntr.scan_repository env fr cr (entropy args)
                  (history args) scanner with
          | (Raise _, st) => mkRun (Ret 1%Z) (GitHuntr.fs st) None
          | (Ret results, st) =>
            match output_file args with
            | Some (c :: p) =>
              match write_report host (c :: p) results with
              | Ret _ =>
                mkRun (Ret 0%Z) (GitHuntr.fs st)
                      (Some (ToFile (c :: p), results))
              | Raise _ => mkRun (Ret 1%Z) (GitHuntr.fs st) None
              end
            | _ => mkRun (Ret 0%Z) (GitHuntr.fs st) (Some (ToStdout, results))
            end
          end
        end
    end
  end.

End cli.

(* ===================================================================== *)
(** * More vocabulary *)
(* ===================================================================== *)

(** No list stored in the content view or in the entropy view is empty. *)
Definition no_empty_entry (res : GitHuntr.TreeResult) : Prop :=
  (forall key l, GitHuntr.content res !! key = Some l -> l <> []) /\
  (forall key l, GitHuntr.entropy res !! key = Some l -> l <> []).


(** A commit whose walk ends with [x]. *)
Definition with_raises (c : git.Commit) (x : option exn) : git.Commit :=
  git.mkCommit (git.hexsha c) (git.author_name c) (git.authored_date c)
               (git.message c) (git.traverse c) x.


(** Runs of [main] to look at. *)
Module runs.

Definition host : cli.Host := cli.mkHost (Ret tt) (fun _ _ => Ret tt).

Definition no_git : cli.Host :=
  cli.mkHost (Raise GitCommandError) (fun _ _ => Ret tt).

Definition args (fr cr : option pystr) : cli.Args :=
  cli.mkArgs fr cr None (str "https://example.org/acme/tool") false true None.

(** An environment whose [re.compile] takes one glob translation more. *)
Definition compile (pattern : pystr) : outcome re.regex :=
  if bool_decide (pattern = str "read.*") then
    Ret (re.Cat (re.lits (str "read")) (re.Star re.dot))
  else sample.compile pattern.

Definition env : Env :=
  mkEnv (str "/home/user") sample.tmp (Ret sample.repository) compile.

(** A repository with nested branch names. *)
Definition nested : git.Repo :=
  git.mkRepo [str "origin/HEAD"; str "origin/main"; str "origin/feature/login"]
    (git.checkout sample.repository) (Ret []).

Definition nested_env : Env :=
  mkEnv (str "/home/user") sample.tmp (Ret nested) sample.compile.



End runs.

(* ===================================================================== *)
(** * Facts about strings *)
(* ===================================================================== *)

Lemma startswith_app (p s t : pystr) :
  startswith p s = true -> startswith p (s ++ t) = true.
Proof.
  revert s; induction p as [|a p IH]; intros [|b s]; simpl; try easy.
  intros H. apply andb_true_iff in H as [-> H]. simpl. now apply IH.
Qed.

(** A substring of a path is a substring of every path that extends it. *)
Lemma str_in_app (p s t : pystr) :
  str_in p s = true -> str_in p (s ++ t) = true.
Proof.
  induction s as [|b s IH].
  - simpl. rewrite orb_false_r. destruct p; [|discriminate].
    intros _. destruct t; reflexivity.
  - cbn [str_in app]. intros H. apply orb_true_iff in H as [H|H].
    + apply (startswith_app _ _ t) in H. cbn [app] in H. now rewrite H.
    + rewrite (IH H). apply orb_true_r.
Qed.

(** [os.walk] names a sub-directory by joining its name to the root: the
    test ['.git' in root] that holds of a directory holds of all below. *)
Lemma str_in_join (p a d : pystr) :
  startswith [posixpath.sep] d = false ->
  str_in p a = true -> str_in p (posixpath.join a d) = true.
Proof.
  intros Hd H. unfold posixpath.join. rewrite Hd.
  destruct (bool_decide (a = []) || posixpath.endswith_sep a).
  - now apply str_in_app.
  - now apply str_in_app.
Qed.

(* ===================================================================== *)
(** * Facts about the walk of a branch *)
(* ===================================================================== *)

Section branch_walk.

Import GitHuntr.

Variable filename_regex content_regex : option re.regex.
Variable do_entropy : bool.
Variable cwd tmp : pystr.

Lemma keys_from_empty P : keys_from P empty_tree.
Proof.
  intros key [H|[H|H]]; cbn in H.
  - now apply elem_of_nil in H.
  - rewrite lookup_empty in H. now destruct H.
  - rewrite lookup_empty in H. now destruct H.
Qed.

Lemma keys_from_add_filename P base key res :
  P key -> keys_from P res ->
  keys_from P (add_filename filename_regex base key res).
Proof.
  intros Hk Hres. unfold add_filename.
  destruct (matches filename_regex base); [|exact Hres].
  intros k [H|[H|H]]; cbn in H.
  - apply elem_of_app in H as [H|H].
    + apply Hres. now left.
    + apply list_elem_of_singleton in H. now subst.
  - apply Hres. right. now left.
  - apply Hres. right. now right.
Qed.

Lemma keys_from_scan_text P key text res :
  P key -> keys_from P res ->
  keys_from P (scan_text content_regex do_entropy key text res).
Proof.
  intros Hk Hres. unfold scan_text.
  set (res1 := match content_regex with Some _ => _ | None => _ end).
  assert (H1 : keys_from P res1).
  { subst res1. destruct content_regex as [r|]; [|exact Hres].
    destruct (matches (Some r) text); [|exact Hres].
    intros k [H|[H|H]]; cbn in H.
    - apply Hres. now left.
    - destruct (decide (key = k)) as [->|Hne]; [exact Hk|].
      rewrite lookup_insert_ne in H by exact Hne. apply Hres. right. now left.
    - apply Hres. right. now right. }
  destruct do_entropy; [|exact H1].
  destruct (EntropyCalculator.scan_for_secrets text) as [|x l]; [exact H1|].
  intros k [H|[H|H]]; cbn in H.
  - apply H1. now left.
  - apply H1. right. now left.
  - destruct (decide (key = k)) as [->|Hne]; [exact Hk|].
    rewrite lookup_insert_ne in H by exact Hne. apply H1. right. now right.
Qed.

Lemma keys_from_search_files P rt fl res :
  (forall file data, (file, data) ∈ fl -> P (key_of cwd tmp rt file)) ->
  keys_from P res ->
  keys_from P (search_files filename_regex content_regex do_entropy
                 cwd tmp rt fl res).1.
Proof.
  revert res. induction fl as [|[file data] fl IH]; intros res Hfl Hres.
  - exact Hres.
  - cbn [search_files].
    assert (Hk : P (key_of cwd tmp rt file)) by (apply (Hfl file data); left).
    assert (Hfl' : forall f d, (f, d) ∈ fl -> P (key_of cwd tmp rt f))
      by (intros f d Hin; apply (Hfl f d); now right).
    pose proof (keys_from_add_filename P file _ res Hk Hres) as H1.
    destruct (read_text_file data) as [text|e].
    + apply IH; [exact Hfl'|]. now apply keys_from_scan_text.
    + destruct (skipped e); [now apply IH|exact H1].
Qed.

Lemma keys_from_search_walk P walk res :
  (forall w file data, w ∈ walk -> skipped_dir w = false ->
     (file, data) ∈ git.files w -> P (key_of cwd tmp (git.root w) file)) ->
  keys_from P res ->
  keys_from P (search_walk filename_regex content_regex do_entropy
                 cwd tmp walk res).1.
Proof.
  revert res. induction walk as [|w walk IH]; intros res Hw Hres.
  - exact Hres.
  - cbn [search_walk]. fold (skipped_dir w).
    assert (Hw' : forall w' file data, w' ∈ walk -> skipped_dir w' = false ->
       (file, data) ∈ git.files w' -> P (key_of cwd tmp (git.root w') file))
      by (intros w' f d Hin; apply Hw; now right).
    destruct (skipped_dir w) eqn:Hs; [now apply IH|].
    pose proof (keys_from_search_files P (git.root w) (git.files w) res
                  (fun f d Hin => Hw w f d ltac:(left) Hs Hin) Hres) as H1.
    destruct (search_files _ _ _ _ _ _ _ _) as [res' [e|]]; cbn in H1.
    + exact H1.
    + now apply IH.
Qed.

(** Directories that fail the test can be dropped from the walk: the loop
    does the same with and without them. *)
Lemma search_walk_filter walk res :
  search_walk filename_regex content_regex do_entropy cwd tmp walk res =
  search_walk filename_regex content_regex do_entropy cwd tmp
    (List.filter (fun w => negb (skipped_dir w)) walk) res.
Proof.
  revert res. induction walk as [|w walk IH]; intros res; [reflexivity|].
  cbn [search_walk List.filter]. fold (skipped_dir w).
  destruct (skipped_dir w) eqn:Hs; cbn [negb].
  - apply IH.
  - cbn [search_walk]. fold (skipped_dir w). rewrite Hs.
    destruct (search_files _ _ _ _ _ _ _ _) as [res' [e|]]; [reflexivity|].
    apply IH.
Qed.

End branch_walk.

(** C10.  In [search_branch] every directory whose path has [".git"] as a
    substring is skipped: the branch is scanned exactly as if the walk did
    not list those directories, and every path that has an entry in a view
    of the result is a file of a directory whose path does not contain
    [".git"].  A directory such as [".github"] is one of the skipped, and
    with a directory all the directories below it. *)
Theorem search_branch_skips_git_dirs
    (fr cr : option re.regex) (de : bool) (env : Env) (st : GitHuntr.State)
    (r : git.Repo) (branch : pystr) (walk : list git.walk_entry) :
  GitHuntr.self_repo st = Some r ->
  git.checkout r branch = Ret walk ->
  GitHuntr.search_branch fr cr de env st branch =
    match GitHuntr.search_walk fr cr de (getcwd env) (GitHuntr.temp_dir st)
            (List.filter (fun w => negb (skipped_dir w)) walk)
            GitHuntr.empty_tree with
    | (res, None) => Ret res
    | (_, Some e) => Raise e
    end /\
  (forall res key,
     GitHuntr.search_branch fr cr de env st branch = Ret res ->
     in_view res key ->
     exists w file data,
       w ∈ walk /\ str_in (str ".git") (git.root w) = false /\
       (file, data) ∈ git.files w /\
       key = key_of (getcwd env) (GitHuntr.temp_dir st) (git.root w) file) /\
  (forall w, str_in (str ".github") (git.root w) = true ->
     skipped_dir w = true) /\
  (forall w d, skipped_dir w = true -> startswith [posixpath.sep] d = false ->
     str_in (str ".git") (posixpath.join (git.root w) d) = true).
Proof.
  intros Hrepo Hco. unfold GitHuntr.search_branch. rewrite Hrepo, Hco.
  split; [|split; [|split]]; [| | |intros w d Hs Hd; now apply str_in_join].
  - now rewrite search_walk_filter.
  - intros res key Hres Hin.
    pose proof (keys_from_search_walk fr cr de (getcwd env)
                  (GitHuntr.temp_dir st)
                  (fun key => exists w file data,
                     w ∈ walk /\ str_in (str ".git") (git.root w) = false /\
                     (file, data) ∈ git.files w /\
                     key = key_of (getcwd env) (GitHuntr.temp_dir st)
                                  (git.root w) file)
                  walk GitHuntr.empty_tree) as H.
    destruct (GitHuntr.search_walk _ _ _ _ _ _ _) as [res' [e|]];
      [discriminate|].
    injection Hres as ->. apply H; [| apply keys_from_empty | exact Hin].
    intros w file data Hw Hs Hf. now exists w, file, data.
  - intros w. unfold skipped_dir. generalize (git.root w) as p.
    induction p as [|c p IH]; [discriminate|].
    cbn [str_in]. intros H. apply orb_true_iff in H as [H|H].
    + apply orb_true_iff. left. cbn in H |- *.
      repeat (destruct p as [|? p]; [now rewrite ?andb_false_r in H|];
              cbn in H |- *).
      repeat (apply andb_true_iff in H as [? H]).
      now repeat (apply andb_true_iff; split).
    + rewrite (IH H). apply orb_true_r.
Qed.

(* ===================================================================== *)
(** * Facts about the two loops over files *)
(* ===================================================================== *)

Section tree_walk.

Import GitHuntr.

Variable filename_regex content_regex : option re.regex.
Variable do_entropy : bool.













End tree_walk.

(* ===================================================================== *)
(** * Facts about the history loop and the driver *)
(* ===================================================================== *)

Section history.

Import GitHuntr.

Variable filename_regex content_regex : option re.regex.
Variable do_entropy : bool.






(** What [search_history] goes through, by the value of [max_commits]. *)
Lemma selected_positive (n : Z) (commits : list git.Commit) :
  (0 < n)%Z -> selected (Some n) commits = take (Z.to_nat n) commits.
Proof.
  intros Hn. unfold selected, slice_to.
  destruct (Z.eqb_spec n 0); [lia|].
  destruct (Z.leb_spec 0 n); [reflexivity|lia].
Qed.

Lemma selected_none (commits : list git.Commit) : selected None commits = commits.
Proof. reflexivity. Qed.

Lemma selected_zero (commits : list git.Commit) :
  selected (Some 0%Z) commits = commits.
Proof. reflexivity. Qed.

Lemma selected_negative (n : Z) (commits : list git.Commit) :
  (n < 0)%Z ->
  selected (Some n) commits =
  take (length commits - Z.to_nat (- n)) commits.
Proof.
  intros Hn. unfold selected, slice_to.
  destruct (Z.eqb_spec n 0); [lia|].
  destruct (Z.leb_spec 0 n); [lia|]. f_equal. lia.
Qed.

(** A positive bound is kept: the first [n] commits of the iteration, all of
    them when there are fewer. *)
Lemma search_history_bounded st r commits n :
  self_repo st = Some r -> git.iter_commits r = Ret commits ->
  max_commits st = Some n -> (0 < n)%Z ->
  search_history filename_regex content_regex do_entropy st =
    search_commits filename_regex content_regex do_entropy
      (take (Z.to_nat n) commits) st /\
  (length (take (Z.to_nat n) commits) <= Z.to_nat n)%nat.
Proof.
  intros Hr Hc Hm Hn. unfold search_history.
  rewrite Hr, Hc, Hm, (selected_positive n commits Hn).
  split; [reflexivity|]. rewrite length_take. lia.
Qed.

Lemma search_history_unbounded st r commits :
  self_repo st = Some r -> git.iter_commits r = Ret commits ->
  max_commits st = None ->
  search_history filename_regex content_regex do_entropy st =
    search_commits filename_regex content_regex do_entropy commits st.
Proof. intros Hr Hc Hm. unfold search_history. now rewrite Hr, Hc, Hm. Qed.

(** None of the steps moves the working directory. *)
Lemma search_commit_temp_dir c st :
  temp_dir (search_commit filename_regex content_regex do_entropy c st).2 =
  temp_dir st /\
  fs (search_commit filename_regex content_regex do_entropy c st).2 = fs st.
Proof.
  unfold search_commit.
  destruct (search_tree _ _ _ _ _ _ _) as [[res log] [[]|]]; now cbn.
Qed.

Lemma search_commits_temp_dir commits st :
  temp_dir (search_commits filename_regex content_regex do_entropy commits st).2
    = temp_dir st.
Proof.
  revert st. induction commits as [|c commits IH]; intros st; [reflexivity|].
  cbn [search_commits].
  pose proof (search_commit_temp_dir c st) as [Ht _].
  destruct (search_commit _ _ _ c st) as [[cr|e] st1]; cbn in Ht.
  - rewrite IH. destruct (has_matches _); now cbn.
  - exact Ht.
Qed.

Lemma search_history_temp_dir st :
  temp_dir (search_history filename_regex content_regex do_entropy st).2 =
  temp_dir st.
Proof.
  unfold search_history. destruct (self_repo st) as [r|]; [|reflexivity].
  destruct (git.iter_commits r); [|reflexivity].
  apply search_commits_temp_dir.
Qed.

Lemma search_branches_temp_dir env bs st :
  temp_dir (search_branches filename_regex content_regex do_entropy env bs st).2
    = temp_dir st.
Proof.
  revert st. induction bs as [|b bs IH]; intros st; [reflexivity|].
  cbn [search_branches].
  destruct (search_branch _ _ _ env st b); [|reflexivity].
  now rewrite IH.
Qed.

End history.

Lemma clone_repo_temp_dir env st :
  GitHuntr.temp_dir (GitHuntr.clone_repo env st).2 = GitHuntr.temp_dir st.
Proof. unfold GitHuntr.clone_repo. now destruct (clone_from env). Qed.

Lemma scan_body_temp_dir env fr cr de h st :
  GitHuntr.temp_dir (GitHuntr.scan_body env fr cr de h st).2 =
  GitHuntr.temp_dir st.
Proof.
  unfold GitHuntr.scan_body.
  pose proof (clone_repo_temp_dir env st) as H1.
  destruct (GitHuntr.clone_repo env st) as [[[]|e] st1]; cbn in H1;
    [|exact H1].
  destruct (GitHuntr.compile_opt env fr) as [f|e]; [|exact H1].
  destruct (GitHuntr.compile_opt env cr) as [c|e]; [|exact H1].
  pose proof (search_branches_temp_dir f c de env
                (GitHuntr.self_branches st1) st1) as H2.
  destruct (GitHuntr.search_branches _ _ _ _ _ _) as [[[]|e] st2];
    cbn in H2 |- *; [|congruence].
  destruct h; [|cbn; congruence].
  pose proof (search_history_temp_dir f c de st2) as H3.
  destruct (GitHuntr.search_history _ _ _ _) as [[[]|e] st3]; cbn in H3 |- *;
    congruence.
Qed.

(** [rmtree] leaves nothing of the directory. *)
Lemma rmtree_gone (d q : pystr) (disk : gset pystr) :
  q ∈ GitHuntr.rmtree d disk -> q ∈ disk /\ GitHuntr.under d q = false.
Proof.
  unfold GitHuntr.rmtree. intros Hq.
  apply elem_of_filter in Hq as [Hq Hin]. now split.
Qed.

Lemma under_self (d : pystr) : GitHuntr.under d d = true.
Proof. unfold GitHuntr.under. now rewrite bool_decide_eq_true_2. Qed.

(** After the [finally] block the working directory does not exist. *)
Lemma cleanup_released st :
  GitHuntr.temp_dir (GitHuntr.cleanup st) = GitHuntr.temp_dir st /\
  GitHuntr.temp_dir st ∉ GitHuntr.fs (GitHuntr.cleanup st).
Proof.
  unfold GitHuntr.cleanup.
  destruct (bool_decide_reflect (GitHuntr.temp_dir st ∈ GitHuntr.fs st))
    as [Hin|Hout].
  - cbn. split; [reflexivity|].
    intros Hq. apply rmtree_gone in Hq as [_ Hq].
    now rewrite under_self in Hq.
  - split; [reflexivity|exact Hout].
Qed.

(* ===================================================================== *)
(** * Facts about the matcher *)
(* ===================================================================== *)

Section matcher.

Import re.

Lemma repeat_loop_enters s body :
  (forall i mk k x, body i mk k = Some x -> enters s i k x) ->
  forall fuel i mk k x,
    repeat_loop body fuel i mk k = Some x -> enters s i k x.
Proof.
  intros Hbody. induction fuel as [|fuel IH]; intros i mk k x H.
  - exists i, mk. auto.
  - cbn [repeat_loop] in H.
    destruct (body i mk _) as [y|] eqn:Hb.
    + injection H as ->. apply Hbody in Hb as (j & mk' & Hij & Hlen & Hk).
      destruct (Nat.ltb_spec i j).
      * apply IH in Hk as (j' & mk'' & Hjj & Hlen' & Hk).
        exists j', mk''. repeat split; [lia|lia|exact Hk].
      * now exists j, mk'.
    + exists i, mk. auto.
Qed.

Lemma m_enters r : forall g s i mk k x,
  m r g s i mk k = Some x -> enters s i k x.
Proof.
  induction r as [|p| | |r1 IH1 r2 IH2|r1 IH1 r2 IH2|r IH|r IH|r IH|r IH];
    intros g s i mk k x H; cbn [m] in H.
  - exists i, mk. auto.
  - destruct (s !! i) as [c|] eqn:Hc; [|discriminate].
    destruct (p c); [|discriminate].
    apply lookup_lt_Some in Hc. exists (S i), mk. repeat split; [lia|lia|exact H].
  - destruct (i =? 0); [|discriminate]. exists i, mk. auto.
  - destruct (_ || _); [|discriminate]. exists i, mk. auto.
  - apply IH1 in H as (j & mk' & Hij & Hlen & H).
    apply IH2 in H as (j' & mk'' & Hjj & Hlen' & H).
    exists j', mk''. repeat split; [lia|lia|exact H].
  - destruct (m r1 g s i mk k) as [y|] eqn:H1.
    + injection H as ->. now apply IH1 in H1.
    + now apply IH2 in H.
  - eapply repeat_loop_enters; [|exact H]. intros. eapply IH; eauto.
  - apply IH in H as (j & mk' & Hij & Hlen & H).
    eapply repeat_loop_enters in H; [|intros; eapply IH; eauto].
    destruct H as (j' & mk'' & Hjj & Hlen' & H).
    exists j', mk''. repeat split; [lia|lia|exact H].
  - destruct (m r g s i mk k) as [y|] eqn:H1.
    + injection H as ->. now apply IH in H1.
    + exists i, mk. auto.
  - apply IH in H as (j & mk' & Hij & Hlen & H). now exists j, (<[S g := (i, j)]> mk').
Qed.

(** A match starts where it was asked for, ends after its start and inside
    the text, and is not empty when it had to advance. *)
Lemma match_at_span r s i adv mt :
  match_at r s i adv = Some mt ->
  m_start mt = i /\ i <= m_end mt /\ (i <= length s -> m_end mt <= length s) /\
  (adv = true -> m_end mt <> i).
Proof.
  unfold match_at. intros H.
  destruct (m r 0 s i ∅ _) as [[j mk]|] eqn:Hm; [|discriminate].
  injection H as <-. cbn.
  apply m_enters in Hm as (j' & mk' & Hij & Hlen & Hk).
  destruct (adv && (j' =? i)) eqn:Hadv; [discriminate|].
  injection Hk as -> ->. repeat split; auto.
  intros -> ->. now rewrite Nat.eqb_refl in Hadv.
Qed.

Lemma search_loop_some r s : forall n i adv mt,
  search_loop r s n i adv = Some mt ->
  i <= m_start mt <= i + n /\
  match_at r s (m_start mt) (adv && (m_start mt =? i)) = Some mt /\
  forall p, i <= p < m_start mt -> match_at r s p (adv && (p =? i)) = None.
Proof.
  induction n as [|n IH]; intros i adv mt H; cbn [search_loop] in H.
  - destruct (match_at r s i adv) as [y|] eqn:Hm; [|discriminate].
    injection H as ->. pose proof (match_at_span _ _ _ _ _ Hm) as (Hs & _).
    rewrite Hs, Nat.eqb_refl, andb_true_r. repeat split; [lia|lia|exact Hm|].
    intros p Hp. lia.
  - destruct (match_at r s i adv) as [y|] eqn:Hm.
    + injection H as ->. pose proof (match_at_span _ _ _ _ _ Hm) as (Hs & _).
      rewrite Hs, Nat.eqb_refl, andb_true_r. repeat split; [lia|lia|exact Hm|].
      intros p Hp. lia.
    + apply IH in H as (Hr & Hat & Hbefore). cbn [andb] in Hat.
      assert ((m_start mt =? i) = false) as -> by (apply Nat.eqb_neq; lia).
      rewrite andb_false_r. repeat split; [lia|lia|exact Hat|].
      intros p Hp. destruct (Nat.eq_dec p i) as [->|Hne].
      * now rewrite Nat.eqb_refl, andb_true_r.
      * assert ((p =? i) = false) as -> by now apply Nat.eqb_neq.
        rewrite andb_false_r. specialize (Hbefore p). cbn [andb] in Hbefore.
        apply Hbefore. lia.
Qed.

Lemma search_loop_none r s : forall n i adv,
  search_loop r s n i adv = None ->
  forall p, i <= p <= i + n -> match_at r s p (adv && (p =? i)) = None.
Proof.
  induction n as [|n IH]; intros i adv H p Hp; cbn [search_loop] in H.
  - destruct (match_at r s i adv) eqn:Hm; [discriminate|].
    assert (p = i) as -> by lia. now rewrite Nat.eqb_refl, andb_true_r.
  - destruct (match_at r s i adv) eqn:Hm; [discriminate|].
    destruct (Nat.eq_dec p i) as [->|Hne].
    + now rewrite Nat.eqb_refl, andb_true_r.
    + assert ((p =? i) = false) as -> by now apply Nat.eqb_neq.
      rewrite andb_false_r. specialize (IH (S i) false H p). cbn [andb] in IH.
      apply IH. lia.
Qed.

(** The loop of [finditer] has rounds enough: what it returns is the whole
    list of matches. *)
Lemma scan_all_matches r s : forall (fuel pos : nat) (adv : bool),
  pos <= length s ->
  2 * (length s - pos) + (if adv then 1 else 2) <= fuel ->
  all_matches r s pos adv (scan r s fuel pos adv).
Proof.
  induction fuel as [|fuel IH]; intros pos adv Hpos Hfuel.
  - destruct adv; lia.
  - cbn [scan]. unfold search_from.
    destruct (search_loop r s (length s - pos) pos adv) as [mt|] eqn:Hs.
    + apply search_loop_some in Hs as (Hr & Hat & Hbefore).
      pose proof (match_at_span _ _ _ _ _ Hat) as (_ & Hle & Hlen & Hadv).
      assert (Hend : m_end mt <= length s) by (apply Hlen; lia).
      apply all_matches_cons; auto; [lia|].
      apply IH; [exact Hend|].
      destruct (Nat.eqb_spec (m_end mt) (m_start mt)) as [Heq|Hne].
      * destruct (Nat.eq_dec (m_start mt) pos) as [Hp|Hp].
        -- destruct adv.
           ++ exfalso. apply Hadv; [|lia].
              rewrite Hp, Nat.eqb_refl. reflexivity.
           ++ lia.
        -- destruct adv; lia.
      * destruct adv; lia.
    + apply all_matches_nil. intros p Hp.
      eapply search_loop_none; [exact Hs|lia].
Qed.

Lemma finditer_all_matches r s : all_matches r s 0 false (finditer r s).
Proof. apply scan_all_matches; lia. Qed.

(** The list of all matches is determined. *)
Lemma all_matches_unique r s pos adv ms :
  all_matches r s pos adv ms ->
  forall ms', all_matches r s pos adv ms' -> ms = ms'.
Proof.
  induction 1 as [pos adv Hnone|pos adv mt ms Hr Hend Hbefore Hat Hrest IH];
    intros ms' H'; inversion H' as [? ? Hnone'|? ? mt' ms'' Hr' Hend' Hbefore' Hat' Hrest'];
    subst.
  - reflexivity.
  - rewrite Hnone in Hat' by lia. discriminate.
  - rewrite Hnone' in Hat by lia. discriminate.
  - assert (m_start mt = m_start mt') as Heq.
    { destruct (Nat.lt_trichotomy (m_start mt) (m_start mt')) as [Hlt|[Heq|Hgt]];
        [|exact Heq|].
      - rewrite Hbefore' in Hat by lia. discriminate.
      - rewrite Hbefore in Hat' by lia. discriminate. }
    rewrite <- Heq in Hat'. rewrite Hat in Hat'. injection Hat' as <-.
    f_equal. now apply IH.
Qed.

(** [search] succeeds exactly when [finditer] has a first match. *)
Lemma search_finditer r s :
  is_Some (search r s) <-> finditer r s <> [].
Proof.
  unfold finditer, search. cbn [scan Nat.mul Nat.add].
  replace (length s + (length s + 0) + 2) with (S (length s + (length s + 0) + 1)) by lia.
  cbn [scan]. destruct (search_from r s 0 false); split; intros H; try easy.
  - now destruct H.
Qed.

End matcher.

Section fuel.

Import re.

(** The matcher looks at its continuation only where it can enter it. *)
Lemma repeat_loop_ext (s : pystr) body :
  (forall i mk k1 k2,
     (forall j mk', i <= j -> (i <= length s -> j <= length s) ->
        k1 j mk' = k2 j mk') ->
     body i mk k1 = body i mk k2) ->
  forall fuel i mk k1 k2,
    (forall j mk', i <= j -> (i <= length s -> j <= length s) ->
       k1 j mk' = k2 j mk') ->
    repeat_loop body fuel i mk k1 = repeat_loop body fuel i mk k2.
Proof.
  intros Hbody. induction fuel as [|fuel IH]; intros i mk k1 k2 Hk;
    cbn [repeat_loop].
  - apply Hk; auto.
  - rewrite (Hk i mk) by auto.
    rewrite (Hbody i mk _
               (fun j mk' => if i <? j then repeat_loop body fuel j mk' k2
                             else k2 j mk')); [reflexivity|].
    intros j mk' Hij Hlen. destruct (i <? j).
    + apply IH. intros j' mk'' Hjj Hlen'. apply Hk; [lia|]. intros. lia.
    + now apply Hk.
Qed.

Lemma m_ext r : forall g s i mk k1 k2,
  (forall j mk', i <= j -> (i <= length s -> j <= length s) ->
     k1 j mk' = k2 j mk') ->
  m r g s i mk k1 = m r g s i mk k2.
Proof.
  induction r as [|p| | |r1 IH1 r2 IH2|r1 IH1 r2 IH2|r IH|r IH|r IH|r IH];
    intros g s i mk k1 k2 Hk; cbn [m].
  - apply Hk; auto.
  - destruct (s !! i) as [c|] eqn:Hc; [|reflexivity].
    apply lookup_lt_Some in Hc. destruct (p c); [|reflexivity].
    apply Hk; lia.
  - destruct (i =? 0); [|reflexivity]. apply Hk; auto.
  - destruct (_ || _); [|reflexivity]. apply Hk; auto.
  - apply IH1. intros j mk' Hij Hlen. apply IH2.
    intros j' mk'' Hjj Hlen'. apply Hk; [lia|]. intros. lia.
  - rewrite (IH1 g s i mk k1 k2 Hk), (IH2 (g + groups r1) s i mk k1 k2 Hk).
    reflexivity.
  - apply (repeat_loop_ext s); [|exact Hk]. intros. now apply IH.
  - apply IH. intros j mk' Hij Hlen.
    apply (repeat_loop_ext s); [intros; now apply IH|].
    intros j' mk'' Hjj Hlen'. apply Hk; [lia|]. intros. lia.
  - rewrite (IH g s i mk k1 k2 Hk), (Hk i mk) by auto. reflexivity.
  - apply IH. intros j mk' Hij Hlen. now apply Hk.
Qed.

(** Every round that loops takes a character: with more rounds than
    characters are left, more rounds change nothing. *)
Lemma repeat_loop_fuel_enough r g s : forall f1 f2 i mk k,
  i <= length s -> length s - i < f1 -> length s - i < f2 ->
  repeat_loop (m r g s) f1 i mk k = repeat_loop (m r g s) f2 i mk k.
Proof.
  induction f1 as [|f1 IH]; intros f2 i mk k Hi H1 H2; [lia|].
  destruct f2 as [|f2]; [lia|]. cbn [repeat_loop].
  rewrite (m_ext r g s i mk _
             (fun j mk' => if i <? j then repeat_loop (m r g s) f2 j mk' k
                           else k j mk')); [reflexivity|].
  intros j mk' Hij Hlen. destruct (Nat.ltb_spec i j); [|reflexivity].
  specialize (Hlen Hi). apply IH; lia.
Qed.

(** The rounds of [finditer] are enough as well: more of them give the same
    list. *)
Lemma scan_fuel_enough r s fuel :
  2 * length s + 2 <= fuel -> scan r s fuel 0 false = finditer r s.
Proof.
  intros Hf. apply (all_matches_unique r s 0 false).
  - apply scan_all_matches; lia.
  - apply finditer_all_matches.
Qed.

End fuel.

(* ===================================================================== *)
(** * Facts about the tokens of [scan_for_secrets] *)
(* ===================================================================== *)

Section tokens.

Import re EntropyCalculator.

Lemma repeat_loop_is_Some body fuel i mk k :
  is_Some (k i mk) -> is_Some (repeat_loop body fuel i mk k).
Proof.
  intros Hk. destruct fuel as [|fuel]; [exact Hk|].
  cbn [repeat_loop]. destruct (body i mk _); [eauto|exact Hk].
Qed.

(** The split pattern matches wherever a separator stands. *)
Lemma split_pattern_hit s p adv c :
  s !! p = Some c -> sep_class c = true ->
  is_Some (match_at SPLIT_PATTERN s p adv).
Proof.
  intros Hc Hsep. unfold match_at, SPLIT_PATTERN. cbn [m]. rewrite Hc, Hsep.
  match goal with |- context [repeat_loop ?b ?f ?i ?mk ?k] =>
    destruct (repeat_loop_is_Some b f i mk k) as [[j mk'] ->]
  end; [|eauto].
  assert ((S p =? p) = false) as -> by (apply Nat.eqb_neq; lia).
  rewrite andb_false_r. eauto.
Qed.

Lemma split_pattern_miss s p adv c :
  match_at SPLIT_PATTERN s p adv = None ->
  s !! p = Some c -> sep_class c = false.
Proof.
  intros Hnone Hc. destruct (sep_class c) eqn:Hsep; [|reflexivity].
  destruct (split_pattern_hit s p adv c Hc Hsep) as [mt Hmt]. congruence.
Qed.

Lemma elem_of_slice (s : pystr) a b c :
  c ∈ slice s a b -> exists p, a <= p < b /\ s !! p = Some c.
Proof.
  unfold slice. intros Hin. apply list_elem_of_lookup in Hin as [i Hi].
  pose proof (lookup_lt_Some _ _ _ Hi) as Hlt. rewrite length_take in Hlt.
  rewrite lookup_take_lt in Hi by lia. rewrite lookup_drop in Hi.
  exists (a + i). split; [lia|exact Hi].
Qed.

(** No separator is left inside a segment. *)
Lemma segments_no_separator s pos adv ms :
  all_matches SPLIT_PATTERN s pos adv ms ->
  forall w c, w ∈ segments s pos ms -> c ∈ w -> sep_class c = false.
Proof.
  induction 1 as [pos adv Hnone|pos adv mt ms Hr Hend Hbefore Hat Hrest IH];
    intros w c Hw Hc; cbn [segments] in Hw.
  - apply list_elem_of_singleton in Hw as ->.
    apply elem_of_slice in Hc as (p & Hp & Hlook).
    eapply split_pattern_miss; [apply (Hnone p); lia|exact Hlook].
  - apply elem_of_cons in Hw as [->|Hw]; [|now apply (IH w c)].
    apply elem_of_slice in Hc as (p & Hp & Hlook).
    eapply split_pattern_miss; [apply (Hbefore p); lia|exact Hlook].
Qed.

Lemma split_no_separator content w c :
  w ∈ split SPLIT_PATTERN content -> c ∈ w -> sep_class c = false.
Proof.
  unfold split. apply segments_no_separator with (adv := false).
  apply finditer_all_matches.
Qed.

Lemma lstrip_id (w : pystr) :
  (forall c, c ∈ w -> isspace c = false) -> lstrip w = w.
Proof.
  destruct w as [|c w]; [reflexivity|]. intros H. cbn.
  now rewrite (H c) by now left.
Qed.

(** [strip] changes nothing in a word without white space. *)
Lemma strip_id (w : pystr) :
  (forall c, c ∈ w -> isspace c = false) -> strip w = w.
Proof.
  intros H. unfold strip, rstrip. rewrite (lstrip_id w H).
  rewrite lstrip_id; [apply rev_involutive|].
  intros c Hc. apply H. apply list_elem_of_In in Hc.
  apply list_elem_of_In. now apply in_rev.
Qed.

Lemma strip_token content w :
  w ∈ split SPLIT_PATTERN content -> strip w = w.
Proof.
  intros Hw. apply strip_id. intros c Hc.
  pose proof (split_no_separator content w c Hw Hc) as Hs.
  unfold sep_class in Hs. destruct (isspace c); [discriminate|reflexivity].
Qed.

(** Membership of one character, as [c in BASE64_CHARS] tests it. *)
Lemma str_in_char (c : N) (l : pystr) : str_in [c] l = true <-> c ∈ l.
Proof.
  induction l as [|a l IH]; cbn [str_in startswith].
  - split; [discriminate|]. intros H. now apply elem_of_nil in H.
  - rewrite orb_true_iff, IH, andb_true_r, N.eqb_eq, elem_of_cons.
    split; intros [H|H]; auto.
Qed.

Lemma base64_check (w : pystr) :
  forallb (fun c => str_in [c] BASE64_CHARS) w = true <->
  Forall (fun c => c ∈ BASE64_CHARS) w.
Proof.
  rewrite forallb_forall, Forall_forall. split; intros H c Hc.
  - apply str_in_char, H. now apply list_elem_of_In.
  - apply str_in_char, H. now apply list_elem_of_In in Hc.
Qed.

(** One round of the loop: the stripped word is appended when it meets the
    three conditions. *)
Lemma check_word_candidate secrets word :
  check_word secrets word =
  if decide (candidate (strip word)) then secrets ++ [strip word] else secrets.
Proof.
  unfold check_word, candidate, threshold.
  destruct (Nat.ltb_spec 15 (length (strip word))) as [Hlen|Hlen].
  - destruct (forallb _ (strip word)) eqn:Hb.
    + apply base64_check in Hb.
      destruct (Rgt_dec _ _) as [Hgt|Hgt].
      * rewrite decide_True; [reflexivity|]. auto.
      * rewrite decide_False; [reflexivity|]. intros (_ & _ & H). auto.
    + rewrite decide_False; [reflexivity|]. intros (_ & H & _).
      apply base64_check in H. congruence.
  - rewrite decide_False; [reflexivity|]. intros (H & _). lia.
Qed.

Lemma fold_check_word words secrets :
  fold_left check_word words secrets =
  secrets ++ filter candidate (map strip words).
Proof.
  revert secrets. induction words as [|w words IH]; intros secrets.
  - cbn. now rewrite app_nil_r.
  - cbn [fold_left map]. rewrite IH, check_word_candidate, filter_cons.
    destruct (decide (candidate (strip w))).
    + now rewrite <- app_assoc.
    + reflexivity.
Qed.

(** [scan_for_secrets] keeps the tokens that meet the conditions, each where
    it stands. *)
Lemma scan_for_secrets_filter content :
  scan_for_secrets content =
  filter candidate (split SPLIT_PATTERN content).
Proof.
  unfold scan_for_secrets. cbn zeta. rewrite fold_check_word. cbn [app].
  f_equal. rewrite <- (map_id (split SPLIT_PATTERN content)) at 2.
  apply map_ext_in. intros w Hw. apply strip_token with (content := content).
  now apply list_elem_of_In.
Qed.

End tokens.

(* ===================================================================== *)
(** * Facts about the content view *)
(* ===================================================================== *)

Section content_view.

Import GitHuntr.

Variable filename_regex : option re.regex.
Variable do_entropy : bool.



Lemma scan_text_content_none key text res :
  content (scan_text None do_entropy key text res) = content res.
Proof.
  unfold scan_text.
  destruct do_entropy;
    [destruct (EntropyCalculator.scan_for_secrets text)|]; reflexivity.
Qed.


Lemma add_filename_content base key res :
  content (add_filename filename_regex base key res) = content res.
Proof. unfold add_filename. now destruct (matches filename_regex base). Qed.

(** Without a content pattern the two loops leave the content view as it
    is. *)
Lemma search_tree_content_none items after res log :
  content (search_tree filename_regex None do_entropy items after res log).1.1
    = content res.
Proof.
  revert res log. induction items as [|b items IH]; intros res log;
    [reflexivity|].
  cbn [search_tree]. destruct (git.type b); try apply IH.
  destruct (read_blob b) as [text|e].
  - now rewrite IH, scan_text_content_none, add_filename_content.
  - destruct (skipped e); [|apply add_filename_content].
    now rewrite IH, add_filename_content.
Qed.



Variable content_regex : option re.regex.








End content_view.


Lemma matches_finditer r s :
  GitHuntr.matches (Some r) s = true -> re.finditer r s <> [].
Proof.
  unfold GitHuntr.matches. intros H. apply bool_decide_eq_true in H.
  now apply search_finditer.
Qed.

(* ===================================================================== *)
(** * Facts about [calculate_entropy] *)
(* ===================================================================== *)

Section entropy.

Import EntropyCalculator.

Lemma dict_get_set freq c v c' d :
  dict_get (dict_set freq c v) c' d =
  if (c =? c')%N then v else dict_get freq c' d.
Proof.
  induction freq as [|[a n] freq IH]; cbn [dict_set dict_get].
  - reflexivity.
  - destruct (N.eqb_spec a c) as [->|Hac]; cbn [dict_get].
    + destruct (N.eqb_spec c c'); reflexivity.
    + rewrite IH. destruct (N.eqb_spec a c') as [->|Hac'].
      * destruct (N.eqb_spec c c'); [congruence|reflexivity].
      * reflexivity.
Qed.

Lemma dict_set_keys freq c v :
  map fst (dict_set freq c v) =
  if bool_decide (c ∈ map fst freq) then map fst freq else map fst freq ++ [c].
Proof.
  induction freq as [|[a n] freq IH]; cbn [dict_set map fst].
  - reflexivity.
  - destruct (N.eqb_spec a c) as [->|Hac]; cbn [map fst].
    + rewrite bool_decide_eq_true_2 by now left. reflexivity.
    + rewrite IH. destruct (bool_decide_reflect (c ∈ map fst freq)) as [Hin|Hout].
      * rewrite bool_decide_eq_true_2 by now right. reflexivity.
      * rewrite bool_decide_eq_false_2; [reflexivity|].
        intros Hin. apply elem_of_cons in Hin as [->|Hin]; auto.
Qed.

Lemma dict_set_values freq c v (g g' : N -> nat) :
  NoDup (map fst freq) ->
  (forall x, x <> c -> g' x = g x) -> g' c = v ->
  map snd freq = map g (map fst freq) ->
  map snd (dict_set freq c v) = map g' (map fst (dict_set freq c v)).
Proof.
  intros Hnd Hother Hc. induction freq as [|[a n] freq IH];
    cbn [dict_set map fst snd]; intros Hval.
  - now rewrite Hc.
  - apply NoDup_cons in Hnd as [Ha Hnd]. injection Hval as Hn Hval.
    destruct (N.eqb_spec a c) as [->|Hac]; cbn [map fst snd].
    + rewrite Hc. f_equal. rewrite Hval. apply map_ext_in.
      intros x Hx. symmetry. apply Hother. intros ->.
      apply Ha. now apply list_elem_of_In.
    + rewrite Hother by exact Hac. rewrite <- Hn. f_equal. now apply IH.
Qed.

Lemma count_chars_snoc text c :
  count_chars (text ++ [c]) =
  dict_set (count_chars text) c (dict_get (count_chars text) c 0 + 1).
Proof. unfold count_chars. now rewrite fold_left_app. Qed.

(** The table [freq] after the loop: one entry per distinct character, in
    the order of the first occurrences, with the number of occurrences. *)
Lemma count_chars_spec text :
  NoDup (map fst (count_chars text)) /\
  (forall c, c ∈ map fst (count_chars text) <-> c ∈ text) /\
  (forall c, dict_get (count_chars text) c 0 = count_occ N.eq_dec text c) /\
  values (count_chars text) =
    map (count_occ N.eq_dec text) (map fst (count_chars text)).
Proof.
  induction text as [|c text (Hnd & Hkeys & Hget & Hval)] using rev_ind.
  - cbn. repeat split; try constructor; intros H; now apply elem_of_nil in H.
  - rewrite count_chars_snoc, Hget.
    assert (Hcount : forall x, count_occ N.eq_dec (text ++ [c]) x =
              if (c =? x)%N then count_occ N.eq_dec text c + 1
              else count_occ N.eq_dec text x).
    { intros x. rewrite count_occ_app. cbn [count_occ].
      destruct (N.eq_dec c x) as [->|Hne].
      - now rewrite N.eqb_refl.
      - apply N.eqb_neq in Hne. rewrite Hne. lia. }
    split; [|split; [|split]].
    + rewrite dict_set_keys. case_bool_decide as Hin; [exact Hnd|].
      apply NoDup_app. repeat split; [exact Hnd| |apply NoDup_singleton].
      intros x Hx Hx'. apply list_elem_of_singleton in Hx' as ->. auto.
    + intros x. rewrite dict_set_keys, elem_of_app, list_elem_of_singleton.
      case_bool_decide as Hin.
      * rewrite Hkeys. split; [auto|]. intros [H| ->]; [exact H|].
        now apply Hkeys.
      * rewrite elem_of_app, list_elem_of_singleton, Hkeys. tauto.
    + intros x. now rewrite dict_get_set, Hcount, Hget.
    + unfold values in *.
      apply dict_set_values with (g := count_occ N.eq_dec text); auto.
      * intros x Hx. rewrite Hcount.
        destruct (N.eqb_spec c x); [congruence|reflexivity].
      * now rewrite Hcount, N.eqb_refl.
Qed.

Lemma sum_fold_right xs : sum xs = Rsum xs.
Proof.
  unfold sum, Rsum.
  assert (H : forall a, fold_left Rplus xs a = (a + fold_right Rplus 0 xs)%R).
  { induction xs as [|x xs IH]; intros a; cbn.
    - lra.
    - rewrite IH. lra. }
  rewrite H. lra.
Qed.

Lemma Rsum_Permutation xs ys : Permutation xs ys -> Rsum xs = Rsum ys.
Proof.
  unfold Rsum. induction 1 as [|x l l' _ IH|x y l|l l' l'' _ IH1 _ IH2];
    cbn [fold_right].
  - reflexivity.
  - now rewrite IH.
  - lra.
  - now rewrite IH1.
Qed.


Lemma calculate_entropy_nonempty text :
  text <> [] ->
  calculate_entropy text =
  (- sum (map (fun count => INR count / INR (length text) *
                            log2 (INR count / INR (length text)))
              (values (count_chars text))))%R.
Proof. destruct text; [congruence|reflexivity]. Qed.




(** In exact arithmetic the entropy does not depend on the order of the
    characters. *)
Lemma shannon_entropy_Permutation s t :
  Permutation s t -> shannon_entropy s = shannon_entropy t.
Proof.
  intros Hp. unfold shannon_entropy. f_equal.
  assert (Hf : forall c, frequency s c = frequency t c).
  { intros c. unfold frequency.
    rewrite (Permutation_length Hp).
    now rewrite (proj1 (Permutation_count_occ N.eq_dec s t) Hp c). }
  rewrite (map_ext _ (fun c => frequency t c * log2 (frequency t c))%R)
    by (intros c; now rewrite Hf).
  apply Rsum_Permutation, Permutation_map.
  apply NoDup_Permutation; try (apply NoDup_ListNoDup, List.NoDup_nodup).
  intros x. rewrite !list_elem_of_In, !nodup_In. split; apply Permutation_in;
    [exact Hp|now apply Permutation_sym].
Qed.

End entropy.

Section entropy_values.

Import EntropyCalculator.






End entropy_values.

Section threshold.

Import EntropyCalculator.

Lemma dict_set_incr_sum freq c :
  list_sum (map snd (dict_set freq c (dict_get freq c 0 + 1))) =
  list_sum (map snd freq) + 1.
Proof.
  unfold list_sum.
  induction freq as [|[a n] freq IH]; cbn [dict_set dict_get map snd fold_right].
  - reflexivity.
  - destruct (N.eqb_spec a c) as [->|Hac]; cbn [map snd fold_right].
    + lia.
    + rewrite IH. lia.
Qed.

(** The counts add up to the length of the text. *)
Lemma count_chars_sum text :
  list_sum (values (count_chars text)) = length text.
Proof.
  unfold values. induction text as [|c text IH] using rev_ind; [reflexivity|].
  rewrite count_chars_snoc, dict_set_incr_sum, IH, length_app. reflexivity.
Qed.

(** Every count is at least one. *)
Lemma count_chars_positive text :
  Forall (fun c => 1 <= c) (values (count_chars text)).
Proof.
  destruct (count_chars_spec text) as (_ & Hkeys & _ & Hval).
  rewrite Hval. apply Forall_forall. intros n Hn.
  apply list_elem_of_fmap in Hn as (c & -> & Hc).
  apply Hkeys, list_elem_of_In in Hc.
  now apply (count_occ_In N.eq_dec) in Hc.
Qed.

(** The sum of the code, with [n * ln 2] taken out. *)
Lemma entropy_terms (n : R) (counts : list nat) :
  (0 < n)%R -> Forall (fun c => 1 <= c) counts ->
  Rsum (map (fun c => INR c / n * log2 (INR c / n)) counts)%R =
  ((Rsum (map (fun c => INR c * ln (INR c)) counts)
    - INR (list_sum counts) * ln n) / (n * ln 2))%R.
Proof.
  intros Hn Hpos. pose proof ln_lt_2 as H2.
  induction Hpos as [|c counts Hc _ IH]; cbn [map].
  - unfold Rsum. cbn. field. lra.
  - change (list_sum (c :: counts)) with (c + list_sum counts).
    unfold Rsum in *. cbn [fold_right]. rewrite IH, plus_INR.
    assert (Hc' : (0 < INR c)%R) by (apply lt_0_INR; lia).
    unfold log2, Rdiv. rewrite ln_mult, ln_Rinv; try lra.
    + field. lra.
    + now apply Rinv_0_lt_compat.
Qed.

Lemma IZR_weight (counts : list nat) :
  Forall (fun c => 1 <= c) counts ->
  (0 < IZR (weight counts))%R /\
  ln (IZR (weight counts)) =
    (10 * Rsum (map (fun c => INR c * ln (INR c)) counts))%R.
Proof.
  induction 1 as [|c counts Hc _ [IHpos IH]]; cbn [weight fold_right map].
  - unfold Rsum. cbn. rewrite ln_1. lra.
  - fold (weight counts). rewrite mult_IZR, <- pow_IZR, <- INR_IZR_INZ.
    assert (Hc' : (0 < INR c)%R) by (apply lt_0_INR; lia).
    assert (Hp : (0 < INR c ^ (10 * c))%R) by now apply pow_lt.
    split; [now apply Rmult_lt_0_compat|].
    rewrite ln_mult, ln_pow, IH by assumption.
    unfold Rsum. cbn [fold_right]. rewrite mult_INR.
    change (INR 10) with (1+1+1+1+1+1+1+1+1+1)%R. lra.
Qed.

(** The integer test decides the comparison of the code. *)
Lemma above_threshold_spec text :
  above_threshold text = true <-> (calculate_entropy text > 43 / 10)%R.
Proof.
  destruct (decide (text = [])) as [->|Hne].
  - cbn. split; [discriminate|lra].
  - assert (Hlen : 1 <= length text) by (destruct text; [congruence|cbn; lia]).
    assert (Hn : (0 < INR (length text))%R) by (apply lt_0_INR; lia).
    pose proof ln_lt_2 as H2.
    pose proof (count_chars_positive text) as Hpos.
    destruct (IZR_weight _ Hpos) as [Hw Hlnw].
    rewrite calculate_entropy_nonempty, sum_fold_right by exact Hne.
    rewrite (entropy_terms _ _ Hn Hpos), count_chars_sum.
    set (S := Rsum _) in *. set (n := INR (length text)) in *.
    unfold above_threshold. cbn zeta. rewrite Z.ltb_lt.
    assert (Hl : (0 < IZR (2 ^ Z.of_nat (43 * length text) *
                          weight (values (count_chars text))))%R).
    { rewrite mult_IZR, <- pow_IZR. apply Rmult_lt_0_compat; [|exact Hw].
      apply pow_lt. lra. }
    assert (Hr : (0 < IZR (Z.of_nat (length text) ^
                           Z.of_nat (10 * length text)))%R).
    { rewrite <- pow_IZR, <- INR_IZR_INZ. now apply pow_lt. }
    assert (Hlnl : ln (IZR (2 ^ Z.of_nat (43 * length text) *
                            weight (values (count_chars text)))) =
                   (43 * n * ln 2 + 10 * S)%R).
    { rewrite mult_IZR, <- pow_IZR, ln_mult, ln_pow, Hlnw, mult_INR;
        try lra; [|apply pow_lt; lra].
      replace (INR 43) with 43%R by (rewrite INR_IZR_INZ; reflexivity).
      reflexivity. }
    assert (Hlnr : ln (IZR (Z.of_nat (length text) ^
                            Z.of_nat (10 * length text))) =
                   (10 * n * ln n)%R).
    { rewrite <- pow_IZR, <- INR_IZR_INZ, ln_pow, mult_INR by exact Hn.
      replace (INR 10) with 10%R by (rewrite INR_IZR_INZ; reflexivity).
      reflexivity. }
    assert (Hcmp : (- ((S - n * ln n) / (n * ln 2)) > 43 / 10)%R <->
                   (43 * n * ln 2 + 10 * S < 10 * n * ln n)%R).
    { assert (Hd : (0 < n * ln 2)%R) by (apply Rmult_lt_0_compat; lra).
      split; intros H.
      - apply (Rmult_lt_compat_r (n * ln 2)) in H; [|exact Hd].
        replace (- ((S - n * ln n) / (n * ln 2)) * (n * ln 2))%R
          with (n * ln n - S)%R in H by (field; lra).
        lra.
      - apply (Rmult_lt_reg_r (n * ln 2)); [exact Hd|].
        replace (- ((S - n * ln n) / (n * ln 2)) * (n * ln 2))%R
          with (n * ln n - S)%R by (field; lra).
        lra. }
    rewrite Hcmp, <- Hlnl, <- Hlnr. split; intros H.
    + apply ln_increasing; [exact Hl|]. now apply IZR_lt.
    + apply lt_IZR. now apply ln_lt_inv.
Qed.

Lemma candidateb_spec w : candidateb w = true <-> candidate w.
Proof.
  unfold candidateb, candidate.
  rewrite !andb_true_iff, Nat.ltb_lt, base64_check, above_threshold_spec.
  tauto.
Qed.

(** [scan_for_secrets], in a form that evaluates. *)
Lemma scan_for_secrets_eval content :
  scan_for_secrets content =
  List.filter candidateb (re.split SPLIT_PATTERN content).
Proof.
  rewrite scan_for_secrets_filter.
  induction (re.split SPLIT_PATTERN content) as [|w l IH]; [reflexivity|].
  rewrite filter_cons. cbn [List.filter]. rewrite IH.
  destruct (candidateb w) eqn:Hb.
  - rewrite decide_True by now apply candidateb_spec. reflexivity.
  - rewrite decide_False; [reflexivity|].
    intros H. apply candidateb_spec in H. congruence.
Qed.

End threshold.

(* ===================================================================== *)
(** * The claims on the walks, the history and the driver *)
(* ===================================================================== *)







(** C8: where the code leaves the claim.  With [max_commits = 0] the
    condition [if self.max_commits] is false, no bound is applied and
    [search_history] goes through all the commits. *)
Theorem search_history_max_commits_zero
    (fr cr : option re.regex) (de : bool) (st : GitHuntr.State)
    (r : git.Repo) (commits : list git.Commit) :
  GitHuntr.self_repo st = Some r ->
  git.iter_commits r = Ret commits ->
  GitHuntr.max_commits st = Some 0%Z ->
  GitHuntr.search_history fr cr de st =
  GitHuntr.search_commits fr cr de commits st.
Proof.
  intros Hr Hc Hm. unfold GitHuntr.search_history. now rewrite Hr, Hc, Hm.
Qed.

Lemma search_history_max_commits_zero_witness :
  GitHuntr.reads
    (GitHuntr.search_history None None false (sample.cloned (Some 0%Z))).2 =
  [sample.readme; sample.notes; sample.readme; sample.logo].
Proof.
  rewrite (search_history_max_commits_zero None None false
             (sample.cloned (Some 0%Z)) sample.repository
             [sample.commit2; sample.commit1] eq_refl eq_refl eq_refl).
  vm_compute. reflexivity.
Defined.

(** With a bound of one the same history is cut to its newest commit. *)
Example search_history_max_commits_one :
  GitHuntr.reads
    (GitHuntr.search_history None None false (sample.cloned (Some 1%Z))).2 =
  [sample.readme; sample.notes].
Proof. vm_compute. reflexivity. Qed.

(** C9.  [scan_repository] ends as its [try] block ends, with the value or
    with the exception of whichever stage raised, and in both cases the
    working directory does not exist afterwards. *)
Theorem scan_repository_releases_temp_dir
    (env : Env) (fr cr : option pystr) (de history : bool)
    (st : GitHuntr.State) :
  let out := GitHuntr.scan_repository env fr cr de history st in
  out.1 = (GitHuntr.scan_body env fr cr de history st).1 /\
  GitHuntr.temp_dir out.2 = GitHuntr.temp_dir st /\
  GitHuntr.temp_dir st ∉ GitHuntr.fs out.2.
Proof.
  cbn zeta. unfold GitHuntr.scan_repository.
  pose proof (scan_body_temp_dir env fr cr de history st) as Ht.
  destruct (GitHuntr.scan_body env fr cr de history st) as [o st'].
  cbn in Ht |- *.
  destruct (cleanup_released st') as [H1 H2].
  split; [reflexivity|]. split; [congruence|]. now rewrite <- Ht.
Qed.

(** The exits of a run, one by one: the clone fails, a branch scan raises,
    the history scan raises, the run succeeds.  The directory made by
    [__init__] is gone each time. *)
Example exit_clone_fails :
  let out := GitHuntr.scan_repository failing.clone None None false true
               (failing.start failing.clone) in
  sample.tmp ∈ GitHuntr.fs (failing.start failing.clone) /\
  out.1 = Raise GitCommandError /\ GitHuntr.fs out.2 = ∅.
Proof.
  cbn zeta. split; [|split].
  - apply elem_of_union_l, elem_of_singleton. reflexivity.
  - reflexivity.
  - vm_compute. reflexivity.
Qed.

Example exit_branch_raises :
  let out := GitHuntr.scan_repository failing.branch None None false true
               (failing.start failing.branch) in
  out.1 = Raise OtherError /\ GitHuntr.fs out.2 = ∅.
Proof. cbn zeta. split; vm_compute; reflexivity. Qed.

Example exit_history_raises :
  let out := GitHuntr.scan_repository failing.history None None false true
               (failing.start failing.history) in
  out.1 = Raise OtherError /\ GitHuntr.fs out.2 = ∅.
Proof. cbn zeta. split; vm_compute; reflexivity. Qed.

Example exit_success :
  let out := GitHuntr.scan_repository sample.env None None false true
               (sample.fresh None) in
  (exists res, out.1 = Ret res) /\ GitHuntr.fs out.2 = ∅.
Proof. cbn zeta. split; [eexists|]; vm_compute; reflexivity. Qed.

Lemma search_branch_skips_git_dirs_witness :
  exists res,
    GitHuntr.search_branch None (Some sample.key_word) false sample.env
      (sample.cloned None) (str "main") = Ret res /\
    GitHuntr.content res =
      {[ str "README.md" :=
           [re.Str (str "key=AAA"); re.Str (str "key=BBB")] ]} /\
    forall key, in_view res key ->
      exists w file data,
        w ∈ sample.worktree /\ str_in (str ".git") (git.root w) = false /\
        (file, data) ∈ git.files w /\
        key = key_of (str "/home/user") sample.tmp (git.root w) file.
Proof.
  destruct (search_branch_skips_git_dirs None (Some sample.key_word) false
              sample.env (sample.cloned None) sample.repository (str "main")
              sample.worktree eq_refl eq_refl) as (Heq & Hkeys & _).
  eexists. split; [rewrite Heq; vm_compute; reflexivity|].
  split; [vm_compute; reflexivity|].
  intros key Hin. eapply Hkeys; [|exact Hin].
  rewrite Heq. vm_compute. reflexivity.
Defined.

(* ===================================================================== *)
(** * The claim on the content view *)
(* ===================================================================== *)




(* ===================================================================== *)
(** * The claims on [EntropyCalculator] *)
(* ===================================================================== *)








(* ===================================================================== *)
(** * The model at work *)
(* ===================================================================== *)

Example decode_ascii :
  codecs.utf_8_decode (bytes_of "key=A") = Ret (str "key=A").
Proof. reflexivity. Qed.

Example decode_two_bytes :
  codecs.utf_8_decode [x63; xc3; xa9] = Ret [99; 233]%N.
Proof. reflexivity. Qed.

Example decode_three_bytes :
  codecs.utf_8_decode [xe2; x82; xac] = Ret [8364]%N.
Proof. reflexivity. Qed.

Example decode_four_bytes :
  codecs.utf_8_decode [xf0; x9f; x98; x80] = Ret [128512]%N.
Proof. reflexivity. Qed.

Example decode_stray_byte :
  codecs.utf_8_decode [x61; xff] = Raise UnicodeDecodeError.
Proof. reflexivity. Qed.

Example decode_overlong :
  codecs.utf_8_decode [xc0; x80] = Raise UnicodeDecodeError.
Proof. reflexivity. Qed.

Example decode_surrogate :
  codecs.utf_8_decode [xed; xa0; x80] = Raise UnicodeDecodeError.
Proof. reflexivity. Qed.

Example decode_png_header :
  codecs.utf_8_decode sample.logo_bytes = Raise UnicodeDecodeError.
Proof. reflexivity. Qed.

Example newlines_translated :
  GitHuntr.read_text_file (Ret [x61; x0d; x0a; x62; x0d; x63]) =
  Ret [97; 10; 98; 10; 99]%N.
Proof. reflexivity. Qed.

Example join_file : posixpath.join (str "/tmp/x") (str "a.txt") = str "/tmp/x/a.txt".
Proof. reflexivity. Qed.

Example relpath_below :
  posixpath.relpath (str "/home") (str "/tmp/x/src/a.txt") (str "/tmp/x") =
  str "src/a.txt".
Proof. vm_compute. reflexivity. Qed.

Example relpath_relative :
  posixpath.relpath (str "/home") (str "work/./src//a.txt") (str "work") =
  str "src/a.txt".
Proof. vm_compute. reflexivity. Qed.

Example relpath_up :
  posixpath.relpath (str "/home") (str "/a/b") (str "/a/c/d") = str "../../b".
Proof. vm_compute. reflexivity. Qed.

Example normpath_slashes : posixpath.normpath (str "//a/../../b/") = str "//b".
Proof. vm_compute. reflexivity. Qed.

Example normpath_dotdot : posixpath.normpath (str "a/../../b/") = str "../b".
Proof. vm_compute. reflexivity. Qed.

Example github_is_skipped :
  str_in (str ".git") (str "/tmp/githuntr-abc/.github/workflows") = true.
Proof. reflexivity. Qed.

Example gitignore_in_root_is_not :
  str_in (str ".git") sample.tmp = false.
Proof. reflexivity. Qed.

Example split_words :
  re.split EntropyCalculator.SPLIT_PATTERN (str "  a: b=c ") =
  [ []; str "a"; str "b"; str "c"; [] ].
Proof. vm_compute. reflexivity. Qed.

Example findall_star_empty_matches :
  re.findall (re.Star (re.lit 97)) (str "baac") =
  [re.Str []; re.Str (str "aa"); re.Str []; re.Str []].
Proof. vm_compute. reflexivity. Qed.

Example findall_greedy_then_empty :
  re.findall (re.Star (re.Chr (re.word_class sample.ascii_only))) (str "ab") =
  [re.Str (str "ab"); re.Str []].
Proof. vm_compute. reflexivity. Qed.

Example findall_first_alternative :
  re.findall (re.Alt (re.lit 97) (re.lits (str "ab"))) (str "ab") =
  [re.Str (str "a")].
Proof. vm_compute. reflexivity. Qed.

Example search_anchored :
  GitHuntr.matches (Some sample.png) (str "logo.png") = true /\
  GitHuntr.matches (Some sample.png) (str "logo.png.txt") = false.
Proof. split; vm_compute; reflexivity. Qed.

Example scenario_token_entropy :
  above_threshold scenario.token = true /\
  EntropyCalculator.scan_for_secrets (str "token: " ++ scenario.token) =
    [scenario.token].
Proof.
  split; [vm_compute; reflexivity|].
  rewrite scan_for_secrets_eval. vm_compute. reflexivity.
Qed.

Example low_entropy_token_not_flagged :
  EntropyCalculator.scan_for_secrets (str "key=aaaaaaaaaaaaaaaaaaaaaaaa") = [].
Proof. rewrite scan_for_secrets_eval. vm_compute. reflexivity. Qed.

Example twenty_distinct_characters_flagged :
  EntropyCalculator.scan_for_secrets (str "ABCDEFGHIJKLMNOPQRST") =
  [str "ABCDEFGHIJKLMNOPQRST"].
Proof. rewrite scan_for_secrets_eval. vm_compute. reflexivity. Qed.

Example nineteen_distinct_characters_not_flagged :
  EntropyCalculator.scan_for_secrets (str "ABCDEFGHIJKLMNOPQRS") = [].
Proof. rewrite scan_for_secrets_eval. vm_compute. reflexivity. Qed.

Example scenario_branch :
  GitHuntr.search_walk (Some scenario.yaml) None true (str "/home/user")
    sample.tmp scenario.worktree GitHuntr.empty_tree =
  (GitHuntr.mkTree [str "config.yaml"] ∅
     {[ str "config.yaml" := [scenario.token] ]}, None).
Proof.
  cbn [GitHuntr.search_walk GitHuntr.search_files scenario.worktree
       git.root git.files].
  change (str_in (str ".git") sample.tmp) with false.
  change (str_in (str ".git") (str "/tmp/githuntr-k3x/.git")) with true.
  cbn iota.
  change (GitHuntr.read_text_file
            (Ret (bytes_of "token: a1B9x7Q2kP0mZ6vR3tY8sD5fG1hJ4nL7")))
    with (Ret (str "token: " ++ scenario.token)).
  cbn iota. unfold GitHuntr.scan_text.
  rewrite (proj2 scenario_token_entropy).
  vm_compute. reflexivity.
Qed.

(* ===================================================================== *)
(** * [validate_regex] and [main]: what they guarantee *)
(* ===================================================================== *)

Section cli_facts.

Import cli.

Lemma replace_star_has_dot (p : pystr) :
  42%N ∈ p -> 46%N ∈ replace_star p.
Proof.
  induction p as [|c p IH]; intros Hin; [now apply elem_of_nil in Hin|].
  cbn [replace_star]. destruct (N.eqb_spec c 42) as [->|Hne].
  - left.
  - right. apply IH. apply elem_of_cons in Hin as [Heq|Hin]; congruence.
Qed.

(** A pattern with a dot in it is not taken for a glob. *)
Lemma glob_style_dot (p : pystr) : 46%N ∈ p -> glob_style p = false.
Proof.
  intros Hin. unfold glob_style, GLOB_META.
  apply str_in_char in Hin. cbn [str map list_ascii_of_string existsb].
  change (N_of_ascii ".") with 46%N. rewrite Hin. cbn.
  apply andb_false_r.
Qed.

Lemma replace_star_glob_style (p : pystr) :
  glob_style p = true -> glob_style (replace_star p) = false.
Proof.
  intros Hg. apply glob_style_dot, replace_star_has_dot.
  unfold glob_style in Hg. apply andb_true_iff in Hg as [Hs _].
  now apply str_in_char.
Qed.

Lemma replace_star_nonempty (c : N) (p : pystr) : replace_star (c :: p) <> [].
Proof. cbn. destruct (c =? 42)%N; discriminate. Qed.

(** The pattern [validate_regex] hands on, and what is known of it. *)
Lemma validate_regex_Some env p t q :
  validate_regex env p t = Ret (Some q) ->
  q <> [] /\ glob_style q = false /\ exists r, re_compile env q = Ret r.
Proof.
  destruct p as [[|c p]|]; cbn [validate_regex]; try discriminate.
  destruct (glob_style (c :: p)) eqn:Hg;
    (destruct (re_compile env _) as [r|[]] eqn:Hc; try discriminate;
     intros H; injection H as <-).
  - split; [apply (replace_star_nonempty c p)|].
    split; [now apply (replace_star_glob_style (c :: p))|eauto].
  - split; [discriminate|]. split; [exact Hg|eauto].
Qed.

Lemma truthy_nonempty (q : pystr) : q <> [] -> truthy (Some q) = true.
Proof. destruct q; [congruence|reflexivity]. Qed.

End cli_facts.

Section driver_invariants.

Import GitHuntr.

Variable filename_regex content_regex : option re.regex.
Variable do_entropy : bool.

Lemma search_commits_repo commits st :
  repo (results (search_commits filename_regex content_regex do_entropy
                   commits st).2) = repo (results st) /\
  branches (results (search_commits filename_regex content_regex do_entropy
                       commits st).2) = branches (results st).
Proof.
  revert st. induction commits as [|c commits IH]; intros st; [now split|].
  cbn [search_commits]. unfold search_commit.
  destruct (search_tree _ _ _ _ _ _ _) as [[res log] [[]|]];
    cbn -[search_commits]; try (split; reflexivity);
    (destruct (has_matches res);
     match goal with |- context [search_commits _ _ _ commits ?s] =>
       destruct (IH s) as [-> ->] end; split; reflexivity).
Qed.

Lemma search_history_repo st :
  repo (results (search_history filename_regex content_regex do_entropy st).2)
    = repo (results st) /\
  branches (results (search_history filename_regex content_regex do_entropy
                       st).2) = branches (results st).
Proof.
  unfold search_history. destruct (self_repo st) as [r|]; [|now split].
  destruct (git.iter_commits r); [|now split]. apply search_commits_repo.
Qed.

Lemma search_branches_keeps env bs st :
  let st' := (search_branches filename_regex content_regex do_entropy env bs
                st).2 in
  repo (results st') = repo (results st) /\
  commit_history (results st') = commit_history (results st) /\
  reads st' = reads st /\ self_repo st' = self_repo st /\
  temp_dir st' = temp_dir st /\ fs st' = fs st /\
  max_commits st' = max_commits st.
Proof.
  revert st. induction bs as [|b bs IH]; intros st; [cbn; tauto|].
  cbn [search_branches].
  destruct (search_branch _ _ _ env st b) as [res|e]; [|cbn; tauto].
  match goal with |- context [search_branches _ _ _ env bs ?s] =>
    pose proof (IH s) as H end.
  cbn zeta in H |- *. exact H.
Qed.

End driver_invariants.

Lemma clone_repo_keeps env st :
  let st' := (GitHuntr.clone_repo env st).2 in
  GitHuntr.results st' = GitHuntr.results st /\
  GitHuntr.reads st' = GitHuntr.reads st /\
  GitHuntr.max_commits st' = GitHuntr.max_commits st.
Proof. unfold GitHuntr.clone_repo. destruct (clone_from env); cbn; tauto. Qed.


Lemma scan_repository_outcome env fr cr de h st :
  (GitHuntr.scan_repository env fr cr de h st).1 =
    (GitHuntr.scan_body env fr cr de h st).1 /\
  GitHuntr.temp_dir st ∉
    GitHuntr.fs (GitHuntr.scan_repository env fr cr de h st).2.
Proof.
  unfold GitHuntr.scan_repository.
  pose proof (scan_body_temp_dir env fr cr de h st) as Ht.
  destruct (GitHuntr.scan_body env fr cr de h st) as [o st']. cbn in Ht |- *.
  split; [reflexivity|]. rewrite <- Ht. apply cleanup_released.
Qed.

(** X1.  A pattern that [validate_regex] returns is not empty, compiles, is
    no glob any more, and so passes [validate_regex] again unchanged; in
    [scan_repository] its compilation succeeds. *)
Theorem validate_regex_stable (env : Env) (p : option pystr) (t t' q : pystr) :
  cli.validate_regex env p t = Ret (Some q) ->
  q <> [] /\
  cli.validate_regex env (Some q) t' = Ret (Some q) /\
  exists r, GitHuntr.compile_opt env (Some q) = Ret (Some r).
Proof.
  intros H. apply validate_regex_Some in H as (Hne & Hg & r & Hc).
  split; [exact Hne|]. destruct q as [|c q]; [congruence|].
  split.
  - cbn [cli.validate_regex]. now rewrite Hg, Hc.
  - exists r. cbn [GitHuntr.compile_opt]. now rewrite Hc.
Qed.

Lemma validate_regex_stable_witness :
  cli.validate_regex runs.env (Some (str "read*")) (str "filename") =
    Ret (Some (str "read.*")) /\
  cli.validate_regex runs.env (Some (str "read.*")) (str "content") =
    Ret (Some (str "read.*")).
Proof.
  assert (H : cli.validate_regex runs.env (Some (str "read*")) (str "filename")
              = Ret (Some (str "read.*"))) by (vm_compute; reflexivity).
  split; [exact H|].
  exact (proj1 (proj2 (validate_regex_stable runs.env _ _ (str "content") _ H))).
Defined.

(** X2.  When a pattern was given and [validate_regex] returns [None] for
    it, [main] returns 1 before it looks for git: no directory is made,
    nothing is cloned and no report is put out. *)
Theorem main_rejects_invalid_pattern (env : Env) (host : cli.Host)
    (disk : gset pystr) (args : cli.Args) (fr cr : option pystr) :
  cli.validate_regex env (cli.filename_regex args) (str "filename") = Ret fr ->
  cli.validate_regex env (cli.content_regex args) (str "content") = Ret cr ->
  (cli.truthy (cli.filename_regex args) = true /\ fr = None) \/
  (cli.truthy (cli.content_regex args) = true /\ cr = None) ->
  cli.main env host disk args = cli.mkRun (Ret 1%Z) disk None.
Proof.
  intros Hf Hc Hbad. unfold cli.main. rewrite Hf, Hc.
  destruct Hbad as [[-> ->]|[-> ->]]; cbn; [reflexivity|].
  now rewrite orb_true_r.
Qed.

Lemma main_rejects_invalid_pattern_witness :
  cli.main sample.env runs.host {[str "/home"]}
    (runs.args (Some (str "*.txt")) None) =
  cli.mkRun (Ret 1%Z) {[str "/home"]} None.
Proof.
  apply (main_rejects_invalid_pattern sample.env runs.host _ _ None None).
  - vm_compute. reflexivity.
  - reflexivity.
  - left. split; reflexivity.
Defined.

Section main_runs.

Variables (env : Env) (host : cli.Host) (disk : gset pystr) (args : cli.Args).




End main_runs.


(* ===================================================================== *)
(** * [clone_repo] and the loop over the branches *)
(* ===================================================================== *)

Lemma split_sep_aux_no_sep (cur path comp : pystr) :
  posixpath.sep ∉ cur ->
  comp ∈ posixpath.split_sep_aux cur path -> posixpath.sep ∉ comp.
Proof.
  revert cur. induction path as [|c path IH]; intros cur Hcur Hin;
    cbn [posixpath.split_sep_aux] in Hin.
  - apply list_elem_of_singleton in Hin as ->.
    intros H. apply Hcur. apply list_elem_of_In in H.
    apply list_elem_of_In. now apply in_rev.
  - destruct (N.eqb_spec c posixpath.sep) as [->|Hne].
    + apply elem_of_cons in Hin as [->|Hin].
      * intros H. apply Hcur. apply list_elem_of_In in H.
        apply list_elem_of_In. now apply in_rev.
      * apply (IH []); [|exact Hin]. intros H. now apply elem_of_nil in H.
    + apply (IH (c :: cur)); [|exact Hin].
      intros H. apply elem_of_cons in H as [H|H]; [congruence|auto].
Qed.

(** The last segment of a name has no slash in it. *)
Lemma last_segment_no_sep (s : pystr) : posixpath.sep ∉ GitHuntr.last_segment s.
Proof.
  unfold GitHuntr.last_segment, posixpath.split_sep.
  assert (H : forall l : list pystr,
            (forall comp, comp ∈ l -> posixpath.sep ∉ comp) ->
            posixpath.sep ∉ List.last l []).
  { induction l as [|a l IH]; intros Hl.
    - cbn. intros H. now apply elem_of_nil in H.
    - destruct l as [|b l]; [apply Hl; left|].
      change (List.last (a :: b :: l) []) with (List.last (b :: l) []).
      apply IH. intros comp Hc. apply Hl. now right. }
  apply H. intros comp Hc. apply (split_sep_aux_no_sep [] s); [|exact Hc].
  intros Hn. now apply elem_of_nil in Hn.
Qed.

(** X4.  A failed clone leaves the instance as it was and goes on as the
    same exception.  After a successful clone the branches added are the
    last segments of the names of the remote refs, without [HEAD]: no
    branch name has a slash in it (a ref [origin/feature/login] gives the
    branch [login]). *)
Theorem clone_repo_branch_names (env : Env) (st : GitHuntr.State) :
  (forall e, clone_from env = Raise e ->
     GitHuntr.clone_repo env st = (Raise e, st)) /\
  (forall r, clone_from env = Ret r ->
     let st' := (GitHuntr.clone_repo env st).2 in
     (GitHuntr.clone_repo env st).1 = Ret tt /\
     GitHuntr.self_repo st' = Some r /\
     GitHuntr.temp_dir st' ∈ GitHuntr.fs st' /\
     exists names,
       GitHuntr.self_branches st' = GitHuntr.self_branches st ++ names /\
       (forall b, b ∈ names <->
          b <> str "HEAD" /\
          exists ref, ref ∈ git.remote_refs r /\
                      b = GitHuntr.last_segment ref) /\
       (forall b, b ∈ names -> posixpath.sep ∉ b)).
Proof.
  split.
  - intros e He. unfold GitHuntr.clone_repo. now rewrite He.
  - intros r Hr. cbn zeta. unfold GitHuntr.clone_repo. rewrite Hr. cbn.
    split; [reflexivity|]. split; [reflexivity|].
    split; [apply elem_of_union_l, elem_of_singleton; reflexivity|].
    eexists. split; [reflexivity|]. split.
    + intros b. rewrite list_elem_of_filter, list_elem_of_fmap.
      split; intros [H1 (ref & H2 & H3)]; eauto.
    + intros b Hb. apply list_elem_of_filter in Hb as [_ Hb].
      apply list_elem_of_fmap in Hb as (ref & -> & _).
      apply last_segment_no_sep.
Qed.

Lemma clone_repo_branch_names_witness :
  GitHuntr.self_branches
    (GitHuntr.clone_repo runs.nested_env (failing.start runs.nested_env)).2 =
  [str "main"; str "login"] /\
  forall b,
    b ∈ GitHuntr.self_branches
          (GitHuntr.clone_repo runs.nested_env
             (failing.start runs.nested_env)).2 ->
    posixpath.sep ∉ b.
Proof.
  split; [vm_compute; reflexivity|].
  destruct (proj2 (clone_repo_branch_names runs.nested_env
                     (failing.start runs.nested_env)) runs.nested eq_refl)
    as (_ & _ & _ & names & Hnames & _ & Hsep).
  cbn zeta in Hnames. rewrite Hnames. intros b Hb.
  apply Hsep. exact Hb.
Defined.

Section branches.

Import GitHuntr.

Variable filename_regex content_regex : option re.regex.
Variable do_entropy : bool.

(** The scan of a branch looks at the instance only for the clone and its
    directory. *)
Lemma search_branch_set_results env f st b :
  search_branch filename_regex content_regex do_entropy env
    (set_results f st) b =
  search_branch filename_regex content_regex do_entropy env st b.
Proof. reflexivity. Qed.

Lemma search_branches_lookup env bs : forall st st',
  search_branches filename_regex content_regex do_entropy env bs st =
    (Ret tt, st') ->
  forall b,
    (b ∈ bs ->
     exists res,
       search_branch filename_regex content_regex do_entropy env st b =
         Ret res /\
       branches (results st') !! b = Some res) /\
    (b ∉ bs -> branches (results st') !! b = branches (results st) !! b).
Proof.
  induction bs as [|a bs IH]; intros st st' Hrun b.
  - cbn in Hrun. injection Hrun as <-. split; [|reflexivity].
    intros H. now apply elem_of_nil in H.
  - cbn [search_branches] in Hrun.
    destruct (search_branch _ _ _ env st a) as [res|e] eqn:Ha;
      [|discriminate].
    specialize (IH _ _ Hrun b). destruct IH as [IHin IHout].
    rewrite search_branch_set_results in IHin.
    destruct (decide (b ∈ bs)) as [Hin|Hout].
    + split; [intros _; now apply IHin|].
      intros H. exfalso. apply H. now right.
    + rewrite (IHout Hout). cbn.
      destruct (decide (a = b)) as [->|Hne].
      * split; [|intros H; exfalso; apply H; left].
        intros _. exists res. split; [exact Ha|apply lookup_insert_eq].
      * rewrite lookup_insert_ne by exact Hne.
        split; [|reflexivity].
        intros H. apply elem_of_cons in H as [H|H]; [congruence|contradiction].
Qed.

End branches.

(** X5.  When the loop over the branches returns, the report holds for
    every branch the result of its scan and is unchanged elsewhere; a
    branch that cannot be checked out ([GitCommandError]) is in it with
    three empty views, and the branches after it are scanned all the same. *)
Theorem search_branches_entries (fr cr : option re.regex) (de : bool)
    (env : Env) (bs : list pystr) (st st' : GitHuntr.State) :
  GitHuntr.search_branches fr cr de env bs st = (Ret tt, st') ->
  (forall b, b ∈ bs ->
     exists res,
       GitHuntr.search_branch fr cr de env st b = Ret res /\
       GitHuntr.branches (GitHuntr.results st') !! b = Some res) /\
  (forall b, b ∉ bs ->
     GitHuntr.branches (GitHuntr.results st') !! b =
     GitHuntr.branches (GitHuntr.results st) !! b) /\
  (forall b r, b ∈ bs -> GitHuntr.self_repo st = Some r ->
     git.checkout r b = Raise GitCommandError ->
     GitHuntr.branches (GitHuntr.results st') !! b =
       Some GitHuntr.empty_tree) /\
  GitHuntr.commit_history (GitHuntr.results st') =
    GitHuntr.commit_history (GitHuntr.results st).
Proof.
  intros Hrun.
  pose proof (search_branches_lookup fr cr de env bs st st' Hrun) as Hl.
  split; [intros b; apply Hl|]. split; [intros b; apply Hl|]. split.
  - intros b r Hb Hr Hco. destruct (proj1 (Hl b) Hb) as (res & Hres & Hlook).
    unfold GitHuntr.search_branch in Hres. rewrite Hr, Hco in Hres.
    injection Hres as <-. exact Hlook.
  - pose proof (search_branches_keeps fr cr de env bs st) as (_ & H & _).
    cbn zeta in H. now rewrite Hrun in H.
Qed.

Lemma search_branches_entries_witness :
  let st' := (GitHuntr.search_branches None (Some sample.key_word) false
                sample.env [str "gone"; str "main"] (sample.cloned None)).2 in
  GitHuntr.branches (GitHuntr.results st') !! str "gone" =
    Some GitHuntr.empty_tree /\
  exists res,
    GitHuntr.branches (GitHuntr.results st') !! str "main" = Some res /\
    GitHuntr.content res !! str "README.md" =
      Some [re.Str (str "key=AAA"); re.Str (str "key=BBB")].
Proof.
  cbn zeta.
  destruct (GitHuntr.search_branches None (Some sample.key_word) false
              sample.env [str "gone"; str "main"] (sample.cloned None))
    as [o st'] eqn:Hrun.
  assert (Ho : o = Ret tt)
    by (change o with (o, st').1; rewrite <- Hrun; vm_compute; reflexivity).
  subst o.
  destruct (search_branches_entries _ _ _ _ _ _ _ Hrun) as (Hin & _ & Hgone & _).
  cbn [snd]. split.
  - apply (Hgone (str "gone") sample.repository); [left|reflexivity|reflexivity].
  - destruct (Hin (str "main")) as (res & Hres & Hlook); [right; left|].
    exists res. split; [exact Hlook|].
    assert (Hr : Ret res =
                 GitHuntr.search_branch None (Some sample.key_word) false
                   sample.env (sample.cloned None) (str "main"))
      by (now rewrite Hres).
    vm_compute in Hr. injection Hr as ->. vm_compute. reflexivity.
Defined.

(* ===================================================================== *)
(** * More on the walks of a tree *)
(* ===================================================================== *)

Section walks_more.

Import GitHuntr.

Variable filename_regex content_regex : option re.regex.
Variable do_entropy : bool.

Lemma scan_text_filenames key text res :
  filenames (scan_text content_regex do_entropy key text res) = filenames res.
Proof.
  unfold scan_text.
  destruct content_regex as [r|]; [destruct (matches (Some r) text)|];
    destruct do_entropy; cbn [filenames]; try reflexivity;
    destruct (EntropyCalculator.scan_for_secrets text); reflexivity.
Qed.

Lemma scan_text_entropy_off key text res :
  do_entropy = false ->
  entropy (scan_text content_regex do_entropy key text res) = entropy res.
Proof.
  intros ->. unfold scan_text.
  destruct content_regex as [r|]; [destruct (matches (Some r) text)|];
    reflexivity.
Qed.

Lemma add_filename_off base key res :
  filename_regex = None -> add_filename filename_regex base key res = res.
Proof. now intros ->. Qed.

Lemma add_filename_entropy base key res :
  entropy (add_filename filename_regex base key res) = entropy res.
Proof. unfold add_filename. now destruct (matches filename_regex base). Qed.



Lemma no_empty_entry_empty : no_empty_entry empty_tree.
Proof. split; intros key l H; cbn in H; now rewrite lookup_empty in H. Qed.

Lemma no_empty_entry_add_filename base key res :
  no_empty_entry res ->
  no_empty_entry (add_filename filename_regex base key res).
Proof. unfold add_filename. now destruct (matches filename_regex base). Qed.

Lemma no_empty_entry_scan_text key text res :
  no_empty_entry res ->
  no_empty_entry (scan_text content_regex do_entropy key text res).
Proof.
  intros [Hc He]. unfold scan_text.
  set (res1 := match content_regex with Some _ => _ | None => _ end).
  assert (H1 : no_empty_entry res1).
  { subst res1. destruct content_regex as [r|]; [|now split].
    destruct (matches (Some r) text) eqn:Hm; [|now split].
    split; [|exact He]. intros k l. cbn [content].
    destruct (decide (key = k)) as [->|Hne].
    - rewrite lookup_insert_eq. intros H. injection H as <-.
      unfold re.findall. apply matches_finditer in Hm.
      destruct (re.finditer r text); [congruence|discriminate].
    - rewrite lookup_insert_ne by exact Hne. apply Hc. }
  destruct do_entropy; [|exact H1].
  destruct (EntropyCalculator.scan_for_secrets text) as [|x l']; [exact H1|].
  destruct H1 as [Hc1 He1]. split; [exact Hc1|]. intros k l. cbn [entropy].
  destruct (decide (key = k)) as [->|Hne].
  - rewrite lookup_insert_eq. intros H. injection H as <-. discriminate.
  - rewrite lookup_insert_ne by exact Hne. apply He1.
Qed.

Lemma no_empty_entry_search_tree items after res log :
  no_empty_entry res ->
  no_empty_entry (search_tree filename_regex content_regex do_entropy items
                    after res log).1.1.
Proof.
  revert res log. induction items as [|b items IH]; intros res log Hres;
    [exact Hres|].
  cbn [search_tree]. destruct (git.type b); try (now apply IH).
  pose proof (no_empty_entry_add_filename (git.name b) (git.path b) res Hres)
    as H1.
  destruct (read_blob b) as [text|e].
  - apply IH. now apply no_empty_entry_scan_text.
  - destruct (skipped e); [now apply IH|exact H1].
Qed.

Lemma no_empty_entry_search_files cwd tmp rt fl res :
  no_empty_entry res ->
  no_empty_entry (search_files filename_regex content_regex do_entropy cwd tmp
                    rt fl res).1.
Proof.
  revert res. induction fl as [|[file data] fl IH]; intros res Hres;
    [exact Hres|].
  cbn [search_files].
  pose proof (no_empty_entry_add_filename file
                (posixpath.relpath cwd (posixpath.join rt file) tmp) res Hres)
    as H1.
  destruct (read_text_file data) as [text|e].
  - apply IH. now apply no_empty_entry_scan_text.
  - destruct (skipped e); [now apply IH|exact H1].
Qed.

Lemma no_empty_entry_search_walk cwd tmp walk res :
  no_empty_entry res ->
  no_empty_entry (search_walk filename_regex content_regex do_entropy cwd tmp
                    walk res).1.
Proof.
  revert res. induction walk as [|w walk IH]; intros res Hres; [exact Hres|].
  cbn [search_walk]. destruct (str_in _ _); [now apply IH|].
  pose proof (no_empty_entry_search_files cwd tmp (git.root w) (git.files w)
                res Hres) as H1.
  destruct (search_files _ _ _ _ _ _ _ _) as [r [e|]]; cbn in H1 |- *;
    [exact H1|now apply IH].
Qed.

(** The views that a switch turns off. *)
Lemma search_tree_switches items after res log :
  let out := (search_tree filename_regex content_regex do_entropy items after
                res log).1.1 in
  (filename_regex = None -> filenames out = filenames res) /\
  (do_entropy = false -> entropy out = entropy res).
Proof.
  revert res log. induction items as [|b items IH]; intros res log;
    [now split|].
  cbn [search_tree]. destruct (git.type b); try apply IH.
  destruct (read_blob b) as [text|e].
  - match goal with |- context [search_tree _ _ _ items after ?r ?l] =>
      destruct (IH r l) as [Hf He] end.
    cbn zeta in *. split; intros H.
    + now rewrite (Hf H), scan_text_filenames, add_filename_off.
    + now rewrite (He H), scan_text_entropy_off, add_filename_entropy.
  - destruct (skipped e).
    + match goal with |- context [search_tree _ _ _ items after ?r ?l] =>
        destruct (IH r l) as [Hf He] end.
      cbn zeta in *. split; intros H.
      * now rewrite (Hf H), add_filename_off.
      * now rewrite (He H), add_filename_entropy.
    + cbn. split; intros H.
      * now rewrite add_filename_off.
      * now rewrite add_filename_entropy.
Qed.

Lemma search_files_switches cwd tmp rt fl res :
  let out := (search_files filename_regex content_regex do_entropy cwd tmp rt
                fl res).1 in
  (filename_regex = None -> filenames out = filenames res) /\
  (do_entropy = false -> entropy out = entropy res).
Proof.
  revert res. induction fl as [|[file data] fl IH]; intros res; [now split|].
  cbn [search_files]. destruct (read_text_file data) as [text|e].
  - match goal with |- context [search_files _ _ _ cwd tmp rt fl ?r] =>
      destruct (IH r) as [Hf He] end.
    cbn zeta in *. split; intros H.
    + now rewrite (Hf H), scan_text_filenames, add_filename_off.
    + now rewrite (He H), scan_text_entropy_off, add_filename_entropy.
  - destruct (skipped e).
    + match goal with |- context [search_files _ _ _ cwd tmp rt fl ?r] =>
        destruct (IH r) as [Hf He] end.
      cbn zeta in *. split; intros H.
      * now rewrite (Hf H), add_filename_off.
      * now rewrite (He H), add_filename_entropy.
    + cbn. split; intros H.
      * now rewrite add_filename_off.
      * now rewrite add_filename_entropy.
Qed.

Lemma search_walk_switches cwd tmp walk res :
  let out := (search_walk filename_regex content_regex do_entropy cwd tmp
                walk res).1 in
  (filename_regex = None -> filenames out = filenames res) /\
  (do_entropy = false -> entropy out = entropy res).
Proof.
  revert res. induction walk as [|w walk IH]; intros res; [now split|].
  cbn [search_walk]. destruct (str_in _ _); [apply IH|].
  pose proof (search_files_switches cwd tmp (git.root w) (git.files w) res)
    as [Hf He].
  destruct (search_files _ _ _ _ _ _ _ _) as [r [e|]]; cbn in Hf, He |- *;
    [now split|].
  destruct (IH r) as [Hf' He']. cbn zeta in *. split; intros H.
  - now rewrite (Hf' H), (Hf H).
  - now rewrite (He' H), (He H).
Qed.

End walks_more.

(* ===================================================================== *)
(** * [search_commit], [search_branch] and [search_history]: more of what
      they do *)
(* ===================================================================== *)





(** X8.  No list stored in the content view or in the entropy view of a
    result is empty: a path has an entry only where something was found. *)
Theorem views_hold_no_empty_list (fr cr : option re.regex) (de : bool) :
  (forall c st cr',
     (GitHuntr.search_commit fr cr de c st).1 = Ret cr' ->
     (forall key l,
        GitHuntr.content (GitHuntr.tree_result cr') !! key = Some l ->
        l <> []) /\
     (forall key l,
        GitHuntr.entropy (GitHuntr.tree_result cr') !! key = Some l ->
        l <> [])) /\
  (forall env st b res,
     GitHuntr.search_branch fr cr de env st b = Ret res ->
     (forall key l, GitHuntr.content res !! key = Some l -> l <> []) /\
     (forall key l, GitHuntr.entropy res !! key = Some l -> l <> [])).
Proof.
  split.
  - intros c st cr' H. unfold GitHuntr.search_commit in H.
    pose proof (no_empty_entry_search_tree fr cr de (git.traverse c)
                  (git.traverse_raises c) GitHuntr.empty_tree
                  (GitHuntr.reads st) no_empty_entry_empty) as Hne.
    destruct (GitHuntr.search_tree _ _ _ _ _ _ _) as [[res log] [[]|]];
      cbn in H, Hne; try discriminate; injection H as <-; exact Hne.
  - intros env st b res H. unfold GitHuntr.search_branch in H.
    destruct (GitHuntr.self_repo st) as [r|]; [|discriminate].
    destruct (git.checkout r b) as [walk|[]]; try discriminate.
    + pose proof (no_empty_entry_search_walk fr cr de (getcwd env)
                    (GitHuntr.temp_dir st) walk GitHuntr.empty_tree
                    no_empty_entry_empty) as Hne.
      destruct (GitHuntr.search_walk _ _ _ _ _ _ _) as [r' [e|]];
        [discriminate|]. injection H as <-. exact Hne.
    + injection H as <-. apply no_empty_entry_empty.
Qed.

Lemma views_hold_no_empty_list_witness :
  exists cr',
    (GitHuntr.search_commit None (Some sample.key_word) false sample.commit2
       (sample.cloned None)).1 = Ret cr' /\
    forall key l,
      GitHuntr.content (GitHuntr.tree_result cr') !! key = Some l -> l <> [].
Proof.
  destruct (GitHuntr.search_commit None (Some sample.key_word) false
              sample.commit2 (sample.cloned None)) as [[cr'|e] st'] eqn:Hrun.
  - exists cr'. split; [reflexivity|].
    apply (proj1 (views_hold_no_empty_list None (Some sample.key_word) false)
             sample.commit2 (sample.cloned None) cr').
    now rewrite Hrun.
  - exfalso. assert (H : (GitHuntr.search_commit None (Some sample.key_word)
                            false sample.commit2 (sample.cloned None)).1
                         = Raise e) by now rewrite Hrun.
    vm_compute in H. discriminate H.
Defined.

(** X9.  Without a file name pattern the file names view of every result is
    empty, and with the entropy switch off the entropy view is: an absent
    pattern never counts as one that matches everything. *)
Theorem switched_off_views_stay_empty (fr cr : option re.regex) (de : bool) :
  (forall c st cr',
     (GitHuntr.search_commit None cr de c st).1 = Ret cr' ->
     GitHuntr.filenames (GitHuntr.tree_result cr') = []) /\
  (forall c st cr',
     (GitHuntr.search_commit fr cr false c st).1 = Ret cr' ->
     GitHuntr.entropy (GitHuntr.tree_result cr') = ∅) /\
  (forall env st b res,
     GitHuntr.search_branch None cr de env st b = Ret res ->
     GitHuntr.filenames res = []) /\
  (forall env st b res,
     GitHuntr.search_branch fr cr false env st b = Ret res ->
     GitHuntr.entropy res = ∅).
Proof.
  assert (Hcommit : forall f e c st cr',
            (GitHuntr.search_commit f cr e c st).1 = Ret cr' ->
            (f = None -> GitHuntr.filenames (GitHuntr.tree_result cr') = []) /\
            (e = false -> GitHuntr.entropy (GitHuntr.tree_result cr') = ∅)).
  { intros f e c st cr' H. unfold GitHuntr.search_commit in H.
    pose proof (search_tree_switches f cr e (git.traverse c)
                  (git.traverse_raises c) GitHuntr.empty_tree
                  (GitHuntr.reads st)) as Hs.
    destruct (GitHuntr.search_tree _ _ _ _ _ _ _) as [[res log] [[]|]];
      cbn in H, Hs; try discriminate; injection H as <-; exact Hs. }
  assert (Hbranch : forall f e env st b res,
            GitHuntr.search_branch f cr e env st b = Ret res ->
            (f = None -> GitHuntr.filenames res = []) /\
            (e = false -> GitHuntr.entropy res = ∅)).
  { intros f e env st b res H. unfold GitHuntr.search_branch in H.
    destruct (GitHuntr.self_repo st) as [r|]; [|discriminate].
    destruct (git.checkout r b) as [walk|[]]; try discriminate.
    - pose proof (search_walk_switches f cr e (getcwd env)
                    (GitHuntr.temp_dir st) walk GitHuntr.empty_tree) as Hs.
      destruct (GitHuntr.search_walk _ _ _ _ _ _ _) as [r' [x|]];
        [discriminate|]. injection H as <-. exact Hs.
    - injection H as <-. now split. }
  split; [|split; [|split]].
  - intros c st cr' H. now apply (Hcommit None de c st cr' H).
  - intros c st cr' H. now apply (Hcommit fr false c st cr' H).
  - intros env st b res H. now apply (Hbranch None de env st b res H).
  - intros env st b res H. now apply (Hbranch fr false env st b res H).
Qed.

Lemma switched_off_views_stay_empty_witness :
  exists res,
    GitHuntr.search_branch None (Some sample.key_word) true sample.env
      (sample.cloned None) (str "gone") = Ret res /\
    GitHuntr.filenames res = [] /\
    exists cr',
      (GitHuntr.search_commit (Some sample.png) None false sample.commit1
         (sample.cloned None)).1 = Ret cr' /\
      GitHuntr.entropy (GitHuntr.tree_result cr') = ∅.
Proof.
  destruct (switched_off_views_stay_empty (Some sample.png)
              (Some sample.key_word) true) as (_ & _ & Hb & _).
  destruct (switched_off_views_stay_empty (Some sample.png) None false)
    as (_ & Hc & _).
  exists GitHuntr.empty_tree. split; [reflexivity|].
  split; [apply (Hb sample.env (sample.cloned None) (str "gone")); reflexivity|].
  destruct (GitHuntr.search_commit (Some sample.png) None false sample.commit1
              (sample.cloned None)) as [[cr'|e] st'] eqn:Hrun.
  - exists cr'. split; [reflexivity|].
    apply (Hc sample.commit1 (sample.cloned None)). now rewrite Hrun.
  - exfalso. assert (H : (GitHuntr.search_commit (Some sample.png) None false
                            sample.commit1 (sample.cloned None)).1 = Raise e)
      by now rewrite Hrun.
    vm_compute in H. discriminate H.
Defined.

Section history_more.

Import GitHuntr.

Variable filename_regex content_regex : option re.regex.
Variable do_entropy : bool.

Lemma has_matches_true (t : TreeResult) :
  has_matches t = true <->
  filenames t <> [] \/ content t <> ∅ \/ entropy t <> ∅.
Proof.
  unfold has_matches. rewrite !orb_true_iff, !negb_true_iff.
  rewrite !bool_decide_eq_false. tauto.
Qed.

Lemma search_commit_results c st :
  results (search_commit filename_regex content_regex do_entropy c st).2 =
  results st.
Proof.
  unfold search_commit.
  destruct (search_tree _ _ _ _ _ _ _) as [[res log] [[]|]]; reflexivity.
Qed.

Lemma search_commit_info c st cr :
  (search_commit filename_regex content_regex do_entropy c st).1 = Ret cr ->
  commit_info cr = info_of c.
Proof.
  unfold search_commit.
  destruct (search_tree _ _ _ _ _ _ _) as [[res log] [[]|]]; cbn;
    try discriminate; intros H; now injection H as <-.
Qed.

(** Where an entry of the history comes from. *)
Lemma search_commits_history commits : forall st h cr,
  commit_history (results (search_commits filename_regex content_regex
                             do_entropy commits st).2) !! h = Some cr ->
  commit_history (results st) !! h = Some cr \/
  exists c, c ∈ commits /\ git.hexsha c = h /\ commit_info cr = info_of c /\
            has_matches (tree_result cr) = true.
Proof.
  induction commits as [|c commits IH]; intros st h cr Hlook; [now left|].
  cbn [search_commits] in Hlook.
  pose proof (search_commit_results c st) as Hres.
  pose proof (search_commit_info c st) as Hinfo.
  destruct (search_commit _ _ _ c st) as [[cr0|e] st1];
    cbn in Hres, Hinfo, Hlook; [|left; now rewrite <- Hres].
  specialize (Hinfo cr0 eq_refl).
  apply IH in Hlook as [Hlook|(c' & Hin & Hh & Hi & Hm)];
    [|right; exists c'; split; [now right|auto]].
  destruct (has_matches (tree_result cr0)) eqn:Hm;
    [|left; now rewrite <- Hres].
  cbn in Hlook. destruct (decide (git.hexsha c = h)) as [Heq|Hne].
  - rewrite Heq, lookup_insert_eq in Hlook. injection Hlook as <-.
    right. exists c. split; [left|]. auto.
  - rewrite lookup_insert_ne in Hlook by exact Hne.
    left. now rewrite <- Hres.
Qed.

End history_more.

(** X10.  After [search_history] an entry of the commit history was there
    before, or belongs to one of the commits gone through: it is filed under
    that commit's hash, carries that commit's data, and at least one of its
    three views is not empty.  Commits without a finding leave no entry. *)
Theorem history_keeps_only_findings (fr cr : option re.regex) (de : bool)
    (st : GitHuntr.State) (h : pystr) (entry : GitHuntr.CommitResult) :
  GitHuntr.commit_history
    (GitHuntr.results (GitHuntr.search_history fr cr de st).2) !! h
    = Some entry ->
  GitHuntr.commit_history (GitHuntr.results st) !! h = Some entry \/
  exists r commits c,
    GitHuntr.self_repo st = Some r /\ git.iter_commits r = Ret commits /\
    c ∈ GitHuntr.selected (GitHuntr.max_commits st) commits /\
    git.hexsha c = h /\
    GitHuntr.info_hash (GitHuntr.commit_info entry) = h /\
    GitHuntr.commit_info entry = GitHuntr.info_of c /\
    (GitHuntr.filenames (GitHuntr.tree_result entry) <> [] \/
     GitHuntr.content (GitHuntr.tree_result entry) <> ∅ \/
     GitHuntr.entropy (GitHuntr.tree_result entry) <> ∅).
Proof.
  unfold GitHuntr.search_history.
  destruct (GitHuntr.self_repo st) as [r|] eqn:Hr; [|now left].
  destruct (git.iter_commits r) as [commits|e] eqn:Hc; [|now left].
  intros H. apply search_commits_history in H as [H|(c & Hin & Hh & Hi & Hm)];
    [now left|].
  right. exists r, commits, c.
  split; [reflexivity|]. split; [exact Hc|]. split; [exact Hin|].
  split; [exact Hh|]. split; [rewrite Hi; exact Hh|]. split; [exact Hi|].
  now apply has_matches_true.
Qed.

Lemma history_keeps_only_findings_witness :
  exists entry,
    GitHuntr.commit_history
      (GitHuntr.results
         (GitHuntr.search_history (Some sample.png) None false
            (sample.cloned None)).2) !! str "41ab" = Some entry /\
    GitHuntr.commit_info entry = GitHuntr.info_of sample.commit1.
Proof.
  destruct (GitHuntr.commit_history
              (GitHuntr.results
                 (GitHuntr.search_history (Some sample.png) None false
                    (sample.cloned None)).2) !! str "41ab")
    as [entry|] eqn:Hlook; [|vm_compute in Hlook; discriminate Hlook].
  exists entry. split; [reflexivity|].
  destruct (history_keeps_only_findings _ _ _ _ _ _ Hlook)
    as [Hold|(r & commits & c & Hr & Hc & Hin & Hh & _ & Hi & _)].
  - vm_compute in Hold. discriminate Hold.
  - rewrite Hi. injection Hr as <-. injection Hc as <-. cbn in Hin.
    apply elem_of_cons in Hin as [->|Hin]; [discriminate Hh|].
    apply list_elem_of_singleton in Hin as ->. reflexivity.
Defined.

(** X11.  With no pattern and the entropy switch off, [search_history]
    changes nothing in the results: whatever the commits hold, none of them
    is reported. *)
Theorem nothing_asked_nothing_reported (st : GitHuntr.State) :
  GitHuntr.results (GitHuntr.search_history None None false st).2 =
  GitHuntr.results st.
Proof.
  unfold GitHuntr.search_history.
  destruct (GitHuntr.self_repo st) as [r|]; [|reflexivity].
  destruct (git.iter_commits r) as [commits|e]; [|reflexivity].
  generalize (GitHuntr.selected (GitHuntr.max_commits st) commits).
  intros l. revert st. induction l as [|c l IH]; intros st; [reflexivity|].
  cbn [GitHuntr.search_commits].
  pose proof (search_commit_results None None false c st) as Hres.
  assert (Hm : forall cr',
            (GitHuntr.search_commit None None false c st).1 = Ret cr' ->
            GitHuntr.has_matches (GitHuntr.tree_result cr') = false).
  { intros cr' H. unfold GitHuntr.search_commit in H.
    pose proof (search_tree_switches None None false (git.traverse c)
                  (git.traverse_raises c) GitHuntr.empty_tree
                  (GitHuntr.reads st)) as [Hf He].
    pose proof (search_tree_content_none None false (git.traverse c)
                  (git.traverse_raises c) GitHuntr.empty_tree
                  (GitHuntr.reads st)) as Hc.
    destruct (GitHuntr.search_tree _ _ _ _ _ _ _) as [[res log] [[]|]];
      cbn in H, Hf, He, Hc; try discriminate; injection H as <-;
      unfold GitHuntr.has_matches; cbn;
      rewrite (Hf eq_refl), (He eq_refl), Hc; reflexivity. }
  destruct (GitHuntr.search_commit None None false c st) as [[cr'|e] st1];
    cbn in Hres; [|exact Hres].
  rewrite (Hm cr' eq_refl). now rewrite IH.
Qed.

(** X12.  A bound other than 0 is the slice [commits[:n]]: a positive [n]
    keeps the first [n] commits of the iteration (all, when there are
    fewer), and a negative [n] leaves out the last [-n] of them. *)
Theorem search_history_slice (fr cr : option re.regex) (de : bool)
    (st : GitHuntr.State) (r : git.Repo) (commits : list git.Commit) (n : Z) :
  GitHuntr.self_repo st = Some r ->
  git.iter_commits r = Ret commits ->
  GitHuntr.max_commits st = Some n ->
  n <> 0%Z ->
  exists k,
    GitHuntr.search_history fr cr de st =
      GitHuntr.search_commits fr cr de (take k commits) st /\
    ((0 < n)%Z -> k = Z.to_nat n /\
                  length (take k commits) = Nat.min (Z.to_nat n) (length commits)) /\
    ((n < 0)%Z -> k = length commits - Z.to_nat (- n) /\
                  length (take k commits) = length commits - Z.to_nat (- n)).
Proof.
  intros Hr Hc Hm Hn. unfold GitHuntr.search_history. rewrite Hr, Hc, Hm.
  destruct (Z.lt_trichotomy n 0) as [Hneg|[H0|Hpos]]; [|congruence|].
  - exists (length commits - Z.to_nat (- n)).
    rewrite (selected_negative n commits Hneg).
    split; [reflexivity|]. split; [lia|].
    intros _. split; [reflexivity|]. rewrite length_take. lia.
  - exists (Z.to_nat n). rewrite (selected_positive n commits Hpos).
    split; [reflexivity|]. split; [|lia].
    intros _. split; [reflexivity|]. rewrite length_take. lia.
Qed.

Lemma search_history_slice_witness :
  GitHuntr.reads
    (GitHuntr.search_history None None false (sample.cloned (Some (-1)%Z))).2 =
  [sample.readme; sample.notes].
Proof.
  destruct (search_history_slice None None false (sample.cloned (Some (-1)%Z))
              sample.repository [sample.commit2; sample.commit1] (-1)%Z
              eq_refl eq_refl eq_refl) as (k & Heq & _ & Hneg); [discriminate|].
  destruct Hneg as [-> _]; [lia|]. rewrite Heq. vm_compute. reflexivity.
Defined.

(** X13.  Without the history switch [scan_repository] reads no file of
    any commit and leaves the commit history of the report as it was. *)
Theorem no_history_no_commit_read (env : Env) (fr cr : option pystr)
    (de : bool) (st : GitHuntr.State) :
  let st' := (GitHuntr.scan_repository env fr cr de false st).2 in
  GitHuntr.reads st' = GitHuntr.reads st /\
  GitHuntr.commit_history (GitHuntr.results st') =
    GitHuntr.commit_history (GitHuntr.results st).
Proof.
  cbn zeta. unfold GitHuntr.scan_repository, GitHuntr.scan_body.
  pose proof (clone_repo_keeps env st) as (Hres & Hreads & _).
  destruct (GitHuntr.clone_repo env st) as [[[]|e] st1]; cbn in Hres, Hreads.
  2:{ cbn. unfold GitHuntr.cleanup. destruct (bool_decide _); cbn;
        now rewrite Hres, Hreads. }
  assert (Hclean : forall s,
            GitHuntr.reads (GitHuntr.cleanup s) = GitHuntr.reads s /\
            GitHuntr.results (GitHuntr.cleanup s) = GitHuntr.results s).
  { intros s. unfold GitHuntr.cleanup. now destruct (bool_decide _). }
  destruct (GitHuntr.compile_opt env fr) as [f|e];
    [|cbn; destruct (Hclean st1) as [-> ->]; now rewrite Hres, Hreads].
  destruct (GitHuntr.compile_opt env cr) as [c|e];
    [|cbn; destruct (Hclean st1) as [-> ->]; now rewrite Hres, Hreads].
  pose proof (search_branches_keeps f c de env (GitHuntr.self_branches st1) st1)
    as (_ & Hh & Hrd & _). cbn zeta in Hh, Hrd.
  destruct (GitHuntr.search_branches _ _ _ _ _ _) as [[[]|e] st2];
    cbn in Hh, Hrd |- *; destruct (Hclean st2) as [-> ->];
    now rewrite Hh, Hrd, Hres, Hreads.
Qed.

(** X14.  When [scan_repository] returns its report, every remote ref whose
    last segment is not [HEAD] has an entry in it, under that segment. *)
Theorem report_covers_remote_branches (env : Env) (fr cr : option pystr)
    (de history : bool) (st : GitHuntr.State) (r : git.Repo)
    (res : GitHuntr.Results) :
  clone_from env = Ret r ->
  (GitHuntr.scan_repository env fr cr de history st).1 = Ret res ->
  forall ref, ref ∈ git.remote_refs r ->
    GitHuntr.last_segment ref <> str "HEAD" ->
    is_Some (GitHuntr.branches res !! GitHuntr.last_segment ref).
Proof.
  intros Hclone Hrun ref Href Hhead.
  rewrite (proj1 (scan_repository_outcome env fr cr de history st)) in Hrun.
  unfold GitHuntr.scan_body in Hrun.
  assert (Hb : GitHuntr.last_segment ref ∈
               GitHuntr.self_branches (GitHuntr.clone_repo env st).2).
  { unfold GitHuntr.clone_repo. rewrite Hclone. cbn.
    apply elem_of_app. right. apply list_elem_of_filter. split; [exact Hhead|].
    apply list_elem_of_fmap. eauto. }
  destruct (GitHuntr.clone_repo env st) as [[[]|e] st1]; [|discriminate].
  cbn in Hb.
  destruct (GitHuntr.compile_opt env fr) as [f|e]; [|discriminate].
  destruct (GitHuntr.compile_opt env cr) as [c|e]; [|discriminate].
  destruct (GitHuntr.search_branches f c de env _ st1) as [[[]|e] st2]
    eqn:Hbs; [|discriminate].
  destruct (proj1 (search_branches_lookup f c de env _ st1 st2 Hbs
                     (GitHuntr.last_segment ref)) Hb) as (tr & _ & Hlook).
  destruct history.
  - pose proof (search_history_repo f c de st2) as (_ & Hbr).
    destruct (GitHuntr.search_history f c de st2) as [[[]|e] st3];
      [|discriminate]. cbn in Hbr, Hrun. injection Hrun as <-.
    rewrite Hbr, Hlook. eauto.
  - cbn in Hrun. injection Hrun as <-. rewrite Hlook. eauto.
Qed.

Lemma report_covers_remote_branches_witness :
  exists res,
    (GitHuntr.scan_repository sample.env None None false true
       (sample.fresh None)).1 = Ret res /\
    is_Some (GitHuntr.branches res !! str "main").
Proof.
  destruct (GitHuntr.scan_repository sample.env None None false true
              (sample.fresh None)) as [[res|e] st'] eqn:Hrun.
  - exists res. split; [reflexivity|].
    apply (report_covers_remote_branches sample.env None None false true
             (sample.fresh None) sample.repository res eq_refl
             ltac:(now rewrite Hrun) (str "origin/main")).
    + right. left.
    + vm_compute. discriminate.
  - exfalso.
    assert (H : (GitHuntr.scan_repository sample.env None None false true
                   (sample.fresh None)).1 = Raise e) by now rewrite Hrun.
    vm_compute in H. discriminate H.
Defined.

(* ===================================================================== *)
(** * The range of the entropy, and the shape of a secret *)
(* ===================================================================== *)

Section entropy_range.

Import EntropyCalculator.











(** A segment is a slice of the text. *)
Lemma segments_slices s : forall ms last w,
  w ∈ re.segments s last ms -> exists a b, w = re.slice s a b.
Proof.
  induction ms as [|mt ms IH]; intros last w Hw; cbn [re.segments] in Hw.
  - apply list_elem_of_singleton in Hw as ->. eauto.
  - apply elem_of_cons in Hw as [->|Hw]; [eauto|]. exact (IH _ w Hw).
Qed.

End entropy_range.





(** X17.  A token [scan_for_secrets] returns is a slice of the content made
    of letters, digits, [+] and [/] only: although [=] is in
    [BASE64_CHARS], the split takes it for a separator, so no secret holds
    one, nor a colon, nor white space. *)
Theorem secret_is_slice_without_separator (content w : pystr) :
  w ∈ EntropyCalculator.scan_for_secrets content ->
  (exists a b, w = re.slice content a b) /\
  forall c, c ∈ w ->
    c ∈ EntropyCalculator.BASE64_CHARS /\ c <> 61%N /\ c <> 58%N /\
    isspace c = false.
Proof.
  rewrite scan_for_secrets_filter. intros Hw.
  apply list_elem_of_filter in Hw as [(_ & Hb & _) Hw]. split.
  - unfold re.split in Hw. now apply segments_slices in Hw.
  - intros c Hc. rewrite Forall_forall in Hb.
    pose proof (split_no_separator content w c Hw Hc) as Hs.
    unfold EntropyCalculator.sep_class in Hs.
    apply orb_false_iff in Hs as [Hs H61].
    apply orb_false_iff in Hs as [Hsp H58].
    apply N.eqb_neq in H61, H58. auto.
Qed.

Lemma secret_is_slice_without_separator_witness :
  (exists a b, token32 = re.slice (str "key=" ++ token32 ++ str "==") a b) /\
  Forall (fun c => c <> 61%N /\ isspace c = false) token32.
Proof.
  destruct (secret_is_slice_without_separator
              (str "key=" ++ token32 ++ str "==") token32) as [Hs Hc].
  - rewrite scan_for_secrets_eval. vm_compute. left.
  - split; [exact Hs|]. apply Forall_forall. intros c Hin.
    destruct (Hc c Hin) as (_ & H61 & _ & Hsp). auto.
Defined.

(* ===================================================================== *)
(** * The text of a file of the working tree *)
(* ===================================================================== *)

Lemma universal_newlines_no_cr (n : nat) : forall s : pystr,
  length s <= n -> 13%N ∉ GitHuntr.universal_newlines s.
Proof.
  induction n as [|n IH]; intros s Hlen.
  - destruct s; [|cbn in Hlen; lia]. cbn. apply not_elem_of_nil.
  - destruct s as [|c rest]; [cbn; apply not_elem_of_nil|].
    cbn in Hlen. cbn [GitHuntr.universal_newlines].
    destruct (N.eqb_spec c 13) as [->|Hc].
    + destruct rest as [|d rest'].
      * intros H. apply list_elem_of_singleton in H. discriminate H.
      * cbn in Hlen.
        destruct (d =? 10)%N; intros H; apply elem_of_cons in H as [H|H];
          try discriminate H.
        -- revert H. apply IH. lia.
        -- revert H. apply IH. cbn. lia.
    + intros H. apply elem_of_cons in H as [H|H]; [congruence|].
      revert H. apply IH. lia.
Qed.

Lemma universal_newlines_id (s : pystr) :
  13%N ∉ s -> GitHuntr.universal_newlines s = s.
Proof.
  induction s as [|c s IH]; intros Hs; [reflexivity|].
  cbn [GitHuntr.universal_newlines].
  destruct (N.eqb_spec c 13) as [->|Hc]; [exfalso; apply Hs; left|].
  rewrite IH; [reflexivity|]. intros H. apply Hs. now right.
Qed.

(** X18.  The text [search_branch] scans of a file has no carriage return
    in it: the file is opened in text mode, which turns [\r\n] and a lone
    [\r] into [\n].  [search_commit] decodes the bytes of a blob as they
    are, so for a file of the working tree that holds the bytes of the blob
    [b] the two scan the same text exactly when the decoded bytes hold no
    carriage return. *)
Theorem branch_text_has_no_carriage_return (b : git.Object) (s : pystr) :
  GitHuntr.read_text_file (git.data_stream_read b) = Ret s ->
  (13%N ∉ s) /\
  exists raw, GitHuntr.read_blob b = Ret raw /\
              (raw = s <-> 13%N ∉ raw).
Proof.
  unfold GitHuntr.read_text_file, GitHuntr.read_blob.
  destruct (git.data_stream_read b) as [data|e]; [|discriminate].
  destruct (codecs.utf_8_decode data) as [raw|e]; [|discriminate].
  intros H. injection H as <-. split.
  - now apply (universal_newlines_no_cr (length raw)).
  - exists raw. split; [reflexivity|]. split.
    + intros Heq. rewrite Heq.
      now apply (universal_newlines_no_cr (length raw)).
    + intros Hraw. symmetry. now apply universal_newlines_id.
Qed.

Lemma branch_text_has_no_carriage_return_witness :
  (13%N ∉ str "key" ++ [10%N] ++ str "value") /\
  GitHuntr.read_blob
    (git.mkObject git.blob (str "a.txt") (str "a.txt")
       (Ret (bytes_of "key" ++ [Byte.x0d; Byte.x0a] ++ bytes_of "value"))) =
  Ret (str "key" ++ [13%N; 10%N] ++ str "value").
Proof.
  split; [|vm_compute; reflexivity].
  apply (branch_text_has_no_carriage_return
           (git.mkObject git.blob (str "a.txt") (str "a.txt")
              (Ret (bytes_of "key" ++ [Byte.x0d; Byte.x0a] ++ bytes_of "value")))).
  vm_compute. reflexivity.
Defined.
